(** * IntelliOS log-processing funnel: a shallow embedding

    The Python modules of the implementation plan in
    [backend/context.md] -- [log_fetcher.py], [regex_parsers.py],
    [config.py], [llm_layer.py] and [main.py] -- are embedded as Rocq
    functions.  The classifier has no code in the source; its decision
    rule is modelled from the specification.

    Conventions.
    - A Python [str] is a [string]; its characters are the code points
      below 256, which covers every character the registered pattern names.
    - A Python [dict] with string keys is a [gmap string _].
    - The outside world (standard output, the model service, the Windows
      event reader) is explicit: a [world] value threaded through a small
      state monad, and oracles for the two external services. *)

From Stdlib Require Import String Ascii List ZArith QArith Lia Bool.
From stdpp Require Import base option list strings gmap.

Local Open Scope string_scope.
Local Open Scope list_scope.

(** ** Python values held by the structured records *)

Inductive pyval : Type :=
  | PyNone
  | PyStr (s : string).

Global Instance pyval_eq_dec : EqDecision pyval.
Proof. solve_decision. Defined.

(** [bool(d)] for a dictionary: an empty one is falsy. *)
Definition truthy (d : gmap string pyval) : bool :=
  negb (bool_decide (d = ∅)).

(** [d.get(k)]: the value under [k], or [None]. *)
Definition dict_get (d : gmap string pyval) (k : string) : pyval :=
  default PyNone (d !! k).

(** ** The pattern language of [re], as far as the registry uses it *)

Module Re.

(** One member of a bracketed character set. *)
Inductive cset_item : Type :=
  | ILit (c : ascii)
  | IRange (lo hi : ascii)
  | IWord.

(** What a single pattern position accepts. *)
Inductive charset : Type :=
  | CAny
  | CLit (c : ascii)
  | CIn (items : list cset_item).

(** The compiled pattern is a flat sequence; a named group is a pair of
    marks around its body, as in the compiled form [re] itself uses. *)
Inductive node : Type :=
  | One (cs : charset)
  | Star (cs : charset)
  | Plus (cs : charset)
  | MarkOpen (name : string)
  | MarkClose (name : string).

Record regex : Type := Regex {
  rx_nodes : list node;
  rx_groups : list string
}.

Inductive compile_error : Type :=
  | BadPattern (msg : string)
  | Unsupported (msg : string).

Definition code (c : ascii) : nat := nat_of_ascii c.

Definition between (lo hi n : nat) : bool := (lo <=? n)%nat && (n <=? hi)%nat.

Definition is_ascii_alnum (c : ascii) : bool :=
  between 48 57 (code c) || between 65 90 (code c) || between 97 122 (code c).

(** [\w] on a [str] pattern: alphanumeric code points and the
    underscore.  Above 127 the alphanumeric ones are the Latin-1
    letters, the superscript digits and the vulgar fractions. *)
Definition is_word (c : ascii) : bool :=
  is_ascii_alnum c
  || (code c =? 95)%nat
  || (code c =? 170)%nat || (code c =? 178)%nat || (code c =? 179)%nat
  || (code c =? 181)%nat || (code c =? 185)%nat || (code c =? 186)%nat
  || between 188 190 (code c)
  || between 192 214 (code c) || between 216 246 (code c)
  || between 248 255 (code c).

Definition item_mem (i : cset_item) (c : ascii) : bool :=
  match i with
  | ILit d => bool_decide (c = d)
  | IRange lo hi => between (code lo) (code hi) (code c)
  | IWord => is_word c
  end.

(** The dot accepts everything but a line feed (no DOTALL flag). *)
Definition cs_mem (cs : charset) (c : ascii) : bool :=
  match cs with
  | CAny => negb (code c =? 10)%nat
  | CLit d => bool_decide (c = d)
  | CIn items => existsb (fun i => item_mem i c) items
  end.

(** *** Matching *)

Record mstate : Type := MState {
  ms_open : list (string * nat);
  ms_caps : gmap string (nat * nat)
}.

Definition ms_init : mstate := MState [] ∅.

Definition mark_open (n : string) (pos : nat) (st : mstate) : mstate :=
  MState ((n, pos) :: ms_open st) (ms_caps st).

Fixpoint assoc_find (n : string) (l : list (string * nat)) : option nat :=
  match l with
  | [] => None
  | (k, v) :: l' => if bool_decide (k = n) then Some v else assoc_find n l'
  end.

Definition mark_close (n : string) (pos : nat) (st : mstate) : mstate :=
  match assoc_find n (ms_open st) with
  | Some b => MState (ms_open st) (<[n := (b, pos)]> (ms_caps st))
  | None => st
  end.

(** Greedy repetition of a one-character set: take as many characters
    as possible, then give back one at a time until the rest of the
    pattern, the continuation [k], succeeds. *)
Fixpoint star_loop {R : Type} (cs : charset) (k : string → nat → option R)
    (s : string) (pos : nat) : option R :=
  match s with
  | String c s' =>
      if cs_mem cs c then
        match star_loop cs k s' (S pos) with
        | Some r => Some r
        | None => k s pos
        end
      else k s pos
  | EmptyString => k s pos
  end.

(** Match the node sequence at the head of [s], which starts at offset
    [pos] of the subject; on success the end offset and the marks. *)
Fixpoint match_here (r : list node) (s : string) (pos : nat) (st : mstate)
    : option (nat * mstate) :=
  match r with
  | [] => Some (pos, st)
  | One cs :: r' =>
      match s with
      | String c s' => if cs_mem cs c then match_here r' s' (S pos) st else None
      | EmptyString => None
      end
  | Star cs :: r' =>
      star_loop cs (fun s1 p1 => match_here r' s1 p1 st) s pos
  | Plus cs :: r' =>
      match s with
      | String c s' =>
          if cs_mem cs c
          then star_loop cs (fun s1 p1 => match_here r' s1 p1 st) s' (S pos)
          else None
      | EmptyString => None
      end
  | MarkOpen n :: r' => match_here r' s pos (mark_open n pos st)
  | MarkClose n :: r' => match_here r' s pos (mark_close n pos st)
  end.

(** Try every start offset from left to right, the end of the subject
    included. *)
Fixpoint search_from (r : list node) (s : string) (pos : nat)
    : option (nat * nat * mstate) :=
  match match_here r s pos ms_init with
  | Some (e, st) => Some (pos, e, st)
  | None =>
      match s with
      | String _ s' => search_from r s' (S pos)
      | EmptyString => None
      end
  end.

(** The match object: the subject, the span of the whole match and the
    spans of the named groups. *)
Record match_obj : Type := Match {
  m_string : string;
  m_span : nat * nat;
  m_caps : gmap string (nat * nat);
  m_names : list string
}.

(** [pattern.search(message)] *)
Definition search (rx : regex) (message : string) : option match_obj :=
  match search_from (rx_nodes rx) message 0 with
  | Some (b, e, st) => Some (Match message (b, e) (ms_caps st) (rx_groups rx))
  | None => None
  end.

Definition slice (s : string) (span : nat * nat) : string :=
  substring (fst span) (snd span - fst span) s.

(** [match.groupdict()]: every named group of the pattern, with [None]
    for a group that took no part in the match. *)
Definition groupdict (m : match_obj) : gmap string pyval :=
  foldr (fun n d =>
           <[n := match m_caps m !! n with
                  | Some span => PyStr (slice (m_string m) span)
                  | None => PyNone
                  end]> d)
        ∅ (m_names m).

(** *** Compilation of a pattern string

    [re.compile] reads the pattern one character at a time.  The
    fragment covers what the registry writes: literals, the dot,
    bracketed sets with ranges and [\w], escaped punctuation, the
    greedy [*] and [+] on a one-character item, and named groups.
    A pattern outside the fragment is reported as [Unsupported]; a
    pattern [re] itself refuses is a [BadPattern]. *)

Inductive pmode : Type :=
  | PTop
  | PEsc
  | PGroup (seen : nat)
  | PName (acc : string)
  | PClass0
  | PClass (items : list cset_item)
  | PClassEsc (items : list cset_item)
  | PClassDash (items : list cset_item) (lo : ascii).

Record pstate : Type := PState {
  p_out : list node;
  p_opens : list string;
  p_names : list string;
  p_mode : pmode
}.

Definition p_init : pstate := PState [] [] [] PTop.

Definition emit (n : node) (st : pstate) : pstate :=
  PState (n :: p_out st) (p_opens st) (p_names st) PTop.

Definition goto (m : pmode) (st : pstate) : pstate :=
  PState (p_out st) (p_opens st) (p_names st) m.

(** A [+] right after a repetition makes it possessive, which is outside
    the fragment; a [*] there is refused. *)
Definition quantify (plus : bool) (st : pstate) : compile_error + pstate :=
  let q := if plus then Plus else Star in
  match p_out st with
  | One cs :: out => inr (PState (q cs :: out) (p_opens st) (p_names st) PTop)
  | Star _ :: _ | Plus _ :: _ =>
      if plus then inl (Unsupported "possessive quantifier")
      else inl (BadPattern "multiple repeat")
  | MarkClose _ :: _ => inl (Unsupported "repeated group")
  | MarkOpen _ :: _ | [] => inl (BadPattern "nothing to repeat")
  end.

Definition is_digit (c : ascii) : bool := between 48 57 (code c).

Definition is_identifier (s : string) : bool :=
  match s with
  | EmptyString => false
  | String c _ =>
      negb (is_digit c)
      && forallb (fun d => is_ascii_alnum d || (code d =? 95)%nat)
                 (list_ascii_of_string s)
  end.

Definition close_group (st : pstate) : compile_error + pstate :=
  match p_opens st with
  | [] => inl (BadPattern "unbalanced parenthesis")
  | n :: opens => inr (PState (MarkClose n :: p_out st) opens (p_names st) PTop)
  end.

(** A group name is an identifier; one with characters beyond ASCII is
    outside the fragment. *)
Definition open_group (name : string) (st : pstate) : compile_error + pstate :=
  if bool_decide (name = "") then inl (BadPattern "missing group name")
  else if existsb (fun d => (128 <=? code d)%nat) (list_ascii_of_string name)
  then inl (Unsupported "group name beyond ASCII")
  else if negb (is_identifier name)
  then inl (BadPattern "bad character in group name")
  else if bool_decide (name ∈ p_names st)
  then inl (BadPattern "redefinition of group name")
  else inr (PState (MarkOpen name :: p_out st) (name :: p_opens st)
                   (p_names st ++ [name]) PTop).

Definition escaped (c : ascii) : compile_error + cset_item :=
  if bool_decide (c = "w"%char) then inr IWord
  else if is_ascii_alnum c then inl (Unsupported "escape")
  else inr (ILit c).

Definition class_char (items : list cset_item) (c : ascii) (st : pstate)
    : compile_error + pstate :=
  if bool_decide (c = "]"%char) then inr (emit (One (CIn (rev items))) st)
  else if bool_decide (c = "\"%char) then inr (goto (PClassEsc items) st)
  else if bool_decide (c = "-"%char) then
    match items with
    | ILit lo :: items' => inr (goto (PClassDash items' lo) st)
    | [] => inr (goto (PClass [ILit c]) st)
    | _ => inl (Unsupported "dash after a range or a class escape")
    end
  else inr (goto (PClass (ILit c :: items)) st).

Definition top_char (c : ascii) (st : pstate) : compile_error + pstate :=
  if bool_decide (c = "\"%char) then inr (goto PEsc st)
  else if bool_decide (c = "."%char) then inr (emit (One CAny) st)
  else if bool_decide (c = "*"%char) then quantify false st
  else if bool_decide (c = "+"%char) then quantify true st
  else if bool_decide (c = "["%char) then inr (goto PClass0 st)
  else if bool_decide (c = "("%char) then inr (goto (PGroup 0) st)
  else if bool_decide (c = ")"%char) then close_group st
  else if bool_decide (c ∈ ["^"; "$"; "?"; "{"; "|"]%char)
  then inl (Unsupported "operator")
  else inr (emit (One (CLit c)) st).

Definition pstep (c : ascii) (st : pstate) : compile_error + pstate :=
  match p_mode st with
  | PTop => top_char c st
  | PEsc =>
      match escaped c with
      | inl e => inl e
      | inr IWord => inr (emit (One (CIn [IWord])) st)
      | inr (ILit d) => inr (emit (One (CLit d)) st)
      | inr (IRange _ _) => inl (Unsupported "escape")
      end
  | PGroup 0 =>
      if bool_decide (c = "?"%char) then inr (goto (PGroup 1) st)
      else inl (Unsupported "unnamed group")
  | PGroup 1 =>
      if bool_decide (c = "P"%char) then inr (goto (PGroup 2) st)
      else inl (Unsupported "group extension")
  | PGroup _ =>
      if bool_decide (c = "<"%char) then inr (goto (PName "") st)
      else inl (Unsupported "group extension")
  | PName acc =>
      if bool_decide (c = ">"%char) then open_group acc st
      else inr (goto (PName (acc +:+ String c "")) st)
  | PClass0 =>
      if bool_decide (c ∈ ["^"; "]"]%char) then inl (Unsupported "set start")
      else class_char [] c st
  | PClass items => class_char items c st
  | PClassEsc items =>
      match escaped c with
      | inl e => inl e
      | inr i => inr (goto (PClass (i :: items)) st)
      end
  | PClassDash items lo =>
      if bool_decide (c = "]"%char)
      then inr (emit (One (CIn (rev (ILit "-" :: ILit lo :: items)))) st)
      else if bool_decide (c = "\"%char) then inl (Unsupported "escape in a range")
      else if (code lo <=? code c)%nat
      then inr (goto (PClass (IRange lo c :: items)) st)
      else inl (BadPattern "bad character range")
  end.

Fixpoint prun (pattern : string) (st : pstate) : compile_error + pstate :=
  match pattern with
  | EmptyString => inr st
  | String c rest =>
      match pstep c st with
      | inl e => inl e
      | inr st' => prun rest st'
      end
  end.

(** [re.compile(pattern)] *)
Definition compile (pattern : string) : compile_error + regex :=
  match prun pattern p_init with
  | inl e => inl e
  | inr st =>
      match p_mode st, p_opens st with
      | PTop, [] => inr (Regex (rev (p_out st)) (p_names st))
      | PTop, _ :: _ => inl (BadPattern "missing ), unterminated subpattern")
      | (PEsc | PClassEsc _), _ => inl (BadPattern "bad escape (end of pattern)")
      | PGroup 0, _ => inl (BadPattern "missing ), unterminated subpattern")
      | PGroup _, _ => inl (BadPattern "unexpected end of pattern")
      | PName _, _ => inl (BadPattern "missing >, unterminated name")
      | _, _ => inl (BadPattern "unterminated character set")
      end
  end.

End Re.

(** ** [regex_parsers.py]: the deterministic layer *)

(** Handler for a standard Application Error event (Event ID 1000). *)
Definition handle_app_error (m : Re.match_obj) : gmap string pyval :=
  let groups := Re.groupdict m in
  {[ "event_type" := PyStr "application_crash";
     "app_name" := dict_get groups "app_name";
     "module_name" := dict_get groups "module_name";
     "error_code" := dict_get groups "error_code" ]}.

(** One entry of the registry, its pattern already compiled. *)
Record parser : Type := Parser {
  provider_name : string;
  regex : Re.regex;
  handler : Re.match_obj → gmap string pyval
}.

(** An entry as the module text writes it: the pattern is still a string. *)
Record parser_source : Type := ParserSource {
  src_provider_name : string;
  src_pattern : string;
  src_handler : Re.match_obj → gmap string pyval
}.

(** Evaluating the list literal at import time: every [re.compile] runs
    here, and the first one that fails aborts the import. *)
Fixpoint load_registry (entries : list parser_source)
    : Re.compile_error + list parser :=
  match entries with
  | [] => inr []
  | e :: rest =>
      match Re.compile (src_pattern e) with
      | inl err => inl err
      | inr rx =>
          match load_registry rest with
          | inl err => inl err
          | inr ps => inr (Parser (src_provider_name e) rx (src_handler e) :: ps)
          end
      end
  end.

Definition app_error_pattern : string :=
  "Faulting application name: (?P<app_name>[\w\.]+), .*"
  +:+ "Faulting module name: (?P<module_name>[\w\.]+), .*"
  +:+ "Exception code: (?P<error_code>0x[0-9a-fA-F]+)".

Definition PARSER_REGISTRY_source : list parser_source :=
  [ ParserSource "Application Error" app_error_pattern handle_app_error ].

Definition app_error_regex : Re.regex :=
  match Re.compile app_error_pattern with
  | inr rx => rx
  | inl _ => Re.Regex [] []
  end.

(** The registry the module holds once imported. *)
Definition PARSER_REGISTRY : list parser :=
  match load_registry PARSER_REGISTRY_source with
  | inr ps => ps
  | inl _ => []
  end.

(** Attempts to parse a log message using the registry.  Returns a
    dictionary on success, or [None] on failure. *)
Fixpoint parse_with_regex (registry : list parser) (provider message : string)
    : option (gmap string pyval) :=
  match registry with
  | [] => None
  | p :: rest =>
      if bool_decide (provider_name p = provider) then
        match Re.search (regex p) message with
        | Some m => Some (handler p m)
        | None => parse_with_regex rest provider message
        end
      else parse_with_regex rest provider message
  end.

(** ** [config.py]: the schema of the constrained extraction *)

Inductive event_type_lit : Type :=
  | file_interaction
  | app_lifecycle
  | system_event
  | unknown.

Definition event_type_name (t : event_type_lit) : string :=
  match t with
  | file_interaction => "file_interaction"
  | app_lifecycle => "app_lifecycle"
  | system_event => "system_event"
  | unknown => "unknown"
  end.

Definition event_type_names : list string :=
  ["file_interaction"; "app_lifecycle"; "system_event"; "unknown"].

(** Schema for a single structured log event. *)
Record ActivityLog : Type := MkActivityLog {
  event_type : event_type_lit;
  app_name : option string;
  file_path : option string;
  summary : string
}.

(** The arguments the model service sends back, as decoded JSON. *)
#[warnings="-register-all"] Inductive json : Type :=
  | JNull
  | JBool (b : bool)
  | JNum (n : Q)
  | JStr (s : string)
  | JArr (items : list json)
  | JObj (fields : gmap string json).

Inductive validation_error : Type :=
  | NotAnObject
  | Missing (field : string)
  | WrongType (field : string)
  | NotInLiteral (field : string).

Definition parse_event_type (s : string) : option event_type_lit :=
  if bool_decide (s = "file_interaction") then Some file_interaction
  else if bool_decide (s = "app_lifecycle") then Some app_lifecycle
  else if bool_decide (s = "system_event") then Some system_event
  else if bool_decide (s = "unknown") then Some unknown
  else None.

(** [Literal[...] = Field(...)]: required, one of the listed strings. *)
Definition validate_event_type (o : gmap string json)
    : validation_error + event_type_lit :=
  match o !! "event_type" with
  | None => inl (Missing "event_type")
  | Some (JStr s) =>
      match parse_event_type s with
      | Some t => inr t
      | None => inl (NotInLiteral "event_type")
      end
  | Some _ => inl (NotInLiteral "event_type")
  end.

(** [str = Field(...)]: required, a string. *)
Definition validate_str (field : string) (o : gmap string json)
    : validation_error + string :=
  match o !! field with
  | None => inl (Missing field)
  | Some (JStr s) => inr s
  | Some _ => inl (WrongType field)
  end.

(** [Optional[str] = Field(None)]: absent or null gives [None]. *)
Definition validate_optional_str (field : string) (o : gmap string json)
    : validation_error + option string :=
  match o !! field with
  | None | Some JNull => inr None
  | Some (JStr s) => inr (Some s)
  | Some _ => inl (WrongType field)
  end.

(** Validation of the reply against the schema; keys the schema does not
    name are ignored. *)
Definition ActivityLog_validate (reply : json) : validation_error + ActivityLog :=
  match reply with
  | JObj o =>
      match validate_event_type o with
      | inl e => inl e
      | inr t =>
          match validate_optional_str "app_name" o with
          | inl e => inl e
          | inr a =>
              match validate_optional_str "file_path" o with
              | inl e => inl e
              | inr f =>
                  match validate_str "summary" o with
                  | inl e => inl e
                  | inr s => inr (MkActivityLog t a f s)
                  end
              end
          end
      end
  | _ => inl NotAnObject
  end.

Definition py_optional (v : option string) : pyval :=
  match v with
  | Some s => PyStr s
  | None => PyNone
  end.

(** [response.dict()] *)
Definition ActivityLog_dict (a : ActivityLog) : gmap string pyval :=
  {[ "event_type" := PyStr (event_type_name (event_type a));
     "app_name" := py_optional (app_name a);
     "file_path" := py_optional (file_path a);
     "summary" := PyStr (summary a) ]}.

(** ** The outside world *)

(** The request [parse_with_llm] sends. *)
Record chat_request : Type := ChatRequest {
  req_model : string;
  req_response_model : string;
  req_system : string;
  req_user : string
}.

(** What one call of the model service does: it raises (network error,
    time-out, undecodable reply) or returns decoded arguments. *)
Inductive completion : Type :=
  | Raises (e : string)
  | Returns (arguments : json).

(** The service is not a function of the request alone: the answer to the
    [n]-th call is [service n request]. *)
Definition model_service : Type := nat → chat_request → completion.

(** The result of one [EvtQuery]: the events in order, ended normally or
    by a failure of the reader. *)
Inductive evt_query : Type :=
  | QEnd
  | QEvent (provider rendered_text : string) (rest : evt_query)
  | QError (e : string).

(** The [n]-th query of the event log, for a channel and an XPath query. *)
Definition event_reader : Type := nat → string → string → evt_query.

(** A caught exception. *)
Inductive exn : Type :=
  | ServiceError (e : string)
  | ValidationFailed (e : validation_error).

(** The lines the modules print. *)
Inductive output : Type :=
  | PrFetching (channel since : string)
  | PrFetchError (channel : string) (e : string)
  | PrRegexFailed (provider : string)
  | PrLLMFailed (e : exn)
  | PrSuccess (count : nat)
  | PrLogs (logs : list (gmap string pyval)).

Record world : Type := World {
  stdout : list output;
  llm_requests : list chat_request;
  evt_queries : list (string * string)
}.

Definition world0 : world := World [] [] [].

(** State passing over the world. *)
Definition M (A : Type) : Type := world → A * world.

Definition ret {A : Type} (a : A) : M A := fun w => (a, w).

Definition bind {A B : Type} (f : A → M B) (m : M A) : M B :=
  fun w => let (a, w') := m w in f a w'.

Global Instance M_ret : MRet M := @ret.
Global Instance M_bind : MBind M := @bind.

Definition print (line : output) : M unit :=
  fun w => (tt, World (stdout w ++ [line]) (llm_requests w) (evt_queries w)).

(** An aware [datetime] in UTC, field by field. *)
Record datetime : Type := DateTime {
  dt_year : nat;
  dt_month : nat;
  dt_day : nat;
  dt_hour : nat;
  dt_minute : nat;
  dt_second : nat;
  dt_microsecond : nat
}.

(** The last [width] decimal digits of [n], zero-padded. *)
Fixpoint digits (width n : nat) : string :=
  match width with
  | O => ""
  | S w => digits w (n / 10) +:+ String (ascii_of_nat (48 + n mod 10)) ""
  end.

(** [str(t)]: the ISO form with a space, the microseconds when there are
    any, and the offset of UTC. *)
Definition datetime_str (t : datetime) : string :=
  digits 4 (dt_year t) +:+ "-" +:+ digits 2 (dt_month t) +:+ "-"
  +:+ digits 2 (dt_day t) +:+ " " +:+ digits 2 (dt_hour t) +:+ ":"
  +:+ digits 2 (dt_minute t) +:+ ":" +:+ digits 2 (dt_second t)
  +:+ (if (dt_microsecond t =? 0)%nat then ""
       else "." +:+ digits 6 (dt_microsecond t))
  +:+ "+00:00".

(** A generator: what the consumer meets when it asks for the next item. *)
Inductive generator : Type :=
  | GReturn
  | GYield (provider message : string) (rest : generator)
  | GPrint (line : output) (rest : generator).

Section Funnel.

Variable service : model_service.
Variable reader : event_reader.

(** *** [llm_layer.py] *)

Definition system_prompt : string :=
  "You are a world-class log parsing expert. Your task is to extract structured data from a raw log entry into the provided schema. Do not invent any information that is not present in the log.".

Definition LF : string := String (ascii_of_nat 10) "".

Definition llm_request (message : string) : chat_request :=
  ChatRequest "gpt-4-turbo" "ActivityLog" system_prompt
              ("Here is the log entry:" +:+ LF +:+ LF +:+ message).

(** The patched [client.chat.completions.create]: one call of the
    service, its reply validated against the response model; a reply
    that does not validate raises. *)
Definition chat_completions_create (request : chat_request)
    : M (exn + ActivityLog) :=
  fun w =>
    let w' := World (stdout w) (llm_requests w ++ [request]) (evt_queries w) in
    match service (length (llm_requests w)) request with
    | Raises e => (inl (ServiceError e), w')
    | Returns arguments =>
        match ActivityLog_validate arguments with
        | inl e => (inl (ValidationFailed e), w')
        | inr response => (inr response, w')
        end
    end.

(** Parses a log message using a constrained LLM call.  Returns a
    dictionary on success, or [None] on failure. *)
Definition parse_with_llm (message : string) : M (option (gmap string pyval)) :=
  r ← chat_completions_create (llm_request message) ;
  match r with
  | inr response => ret (Some (ActivityLog_dict response))
  | inl e => print (PrLLMFailed e) ;; ret None
  end.

(** *** [log_fetcher.py] *)

(** [start_time_utc.strftime('%Y-%m-%dT%H:%M:%SZ')] *)
Definition strftime (t : datetime) : string :=
  digits 4 (dt_year t) +:+ "-" +:+ digits 2 (dt_month t) +:+ "-"
  +:+ digits 2 (dt_day t) +:+ "T" +:+ digits 2 (dt_hour t) +:+ ":"
  +:+ digits 2 (dt_minute t) +:+ ":" +:+ digits 2 (dt_second t) +:+ "Z".

Definition xpath_query (time_str : string) : string :=
  "*[System[TimeCreated[@SystemTime>='" +:+ time_str +:+ "']]]".

(** The [try] block around the loop over the query result: each event
    is yielded as (provider, rendered text); a failure of the reader is
    caught, reported on standard output, and the generator returns. *)
Fixpoint fetch_loop (channel : string) (q : evt_query) : generator :=
  match q with
  | QEnd => GReturn
  | QEvent provider rendered_text rest =>
      GYield provider rendered_text (fetch_loop channel rest)
  | QError e => GPrint (PrFetchError channel e) GReturn
  end.

(** The query is issued when the consumer first asks for an item, which
    [process_logs] does as soon as it has the generator. *)
Definition fetch_windows_event_logs (channel : string) (start_time_utc : datetime)
    : M generator :=
  fun w =>
    let time_str := strftime start_time_utc in
    let query := xpath_query time_str in
    (fetch_loop channel (reader (length (evt_queries w)) channel query),
     World (stdout w) (llm_requests w) (evt_queries w ++ [(channel, query)])).

(** *** [main.py] *)

Section Registry.

Variable registry : list parser.

(** The body of the [for] loop: the funnel for one event. *)
Definition funnel_step (provider message : string)
    (parsed_logs : list (gmap string pyval)) : M (list (gmap string pyval)) :=
  structured_log ←
    match parse_with_regex registry provider message with
    | None => print (PrRegexFailed provider) ;; parse_with_llm message
    | Some d => ret (Some d)
    end ;
  match structured_log with
  | Some d => if truthy d then ret (parsed_logs ++ [d]) else ret parsed_logs
  | None => ret parsed_logs
  end.

(** [for provider, message in <generator>: ...] *)
Fixpoint for_each (g : generator) (parsed_logs : list (gmap string pyval))
    : M (list (gmap string pyval)) :=
  match g with
  | GReturn => ret parsed_logs
  | GYield provider message rest =>
      logs ← funnel_step provider message parsed_logs ;
      for_each rest logs
  | GPrint line rest => print line ;; for_each rest parsed_logs
  end.

(** Orchestrates the fetching and parsing of Windows Event Logs.
    [fetch_since] is the clock reading one hour back; the function
    itself returns nothing, and the list it prints last is taken as its
    result here. *)
Definition process_logs_with (fetch_since : datetime)
    : M (list (gmap string pyval)) :=
  let log_channel := "Application" in
  print (PrFetching log_channel (datetime_str fetch_since)) ;;
  g ← fetch_windows_event_logs log_channel fetch_since ;
  parsed_logs ← for_each g [] ;
  print (PrSuccess (length parsed_logs)) ;;
  print (PrLogs parsed_logs) ;;
  ret parsed_logs.

End Registry.

Definition process_logs : datetime → M (list (gmap string pyval)) :=
  process_logs_with PARSER_REGISTRY.

End Funnel.

(** ** The classifier's decision rule *)

(** Modelled from the spec: the outcome of a classification.  The source
    has no classifier and no topic store (only the design text of Steps 3
    and 4 of the revised flow); the three decisions are those of the
    ClassificationResult of section 3 of the specification. *)
Inductive decision : Type :=
  | matched
  | new_candidate
  | unresolved.

(** Modelled from the spec: "the best score is below a configured
    [match_threshold]" (section 4.4, step 4); the classifier that would
    compare is missing from the source.  A score is a finite number and
    the rule only compares it. *)
Definition below (score match_threshold : Q) : bool :=
  negb (Qle_bool match_threshold score).

(** Modelled from the spec: step 4 of the classifier of section 4.4,
    missing from the source, applied to the answer of the topic store's
    [nearest] (section 4.3: the closest topic and its score, or nothing
    when the store is empty): new candidate if no topics exist or the
    best score is below the threshold, else matched with the returned
    topic. *)
Definition decision_rule (match_threshold : Q) (nearest : option (string * Q))
    : decision * option string :=
  match nearest with
  | None => (new_candidate, None)
  | Some (topic_id, score) =>
      if below score match_threshold then (new_candidate, None)
      else (matched, Some topic_id)
  end.

(** * Vocabulary of the properties *)

(** ** What it means for a pattern to occur in a message *)

Module ReSpec.
Import Re.

(** Every character of [s] belongs to the set. *)
Fixpoint all_in (cs : charset) (s : string) : bool :=
  match s with
  | EmptyString => true
  | String c s' => cs_mem cs c && all_in cs s'
  end.

(** [matches r s]: the whole of [s] conforms to the node sequence [r]. *)
Inductive matches : list node → string → Prop :=
  | matches_nil : matches [] ""
  | matches_one cs c r s :
      cs_mem cs c = true → matches r s → matches (One cs :: r) (String c s)
  | matches_star cs r x s :
      all_in cs x = true → matches r s → matches (Star cs :: r) (x +:+ s)
  | matches_plus cs r c x s :
      cs_mem cs c = true → all_in cs x = true → matches r s →
      matches (Plus cs :: r) (String c (x +:+ s))
  | matches_open n r s : matches r s → matches (MarkOpen n :: r) s
  | matches_close n r s : matches r s → matches (MarkClose n :: r) s.

(** The pattern occurs somewhere inside the message. *)
Definition occurs_in (rx : regex) (message : string) : Prop :=
  ∃ before mid after,
    message = before +:+ mid +:+ after ∧ matches (rx_nodes rx) mid.

End ReSpec.

(** ** Scenario data and observations of a run *)

Definition crash_message : string :=
  "Faulting application name: app.exe, Faulting module name: k.dll, Exception code: 0xC0000005".

(** A rule is a candidate for an event when its provider is the event's
    and its pattern is found in the message. *)
Definition candidate (provider message : string) (p : parser) : Prop :=
  provider_name p = provider ∧ is_Some (Re.search (regex p) message).

(** The record the Application-Error rule builds from [crash_message]. *)
Definition crash_record : gmap string pyval :=
  {[ "event_type" := PyStr "application_crash";
     "app_name" := PyStr "app.exe";
     "module_name" := PyStr "k.dll";
     "error_code" := PyStr "0xC0000005" ]}.

(** The ways a reply can violate the schema: it is not an object, a
    required field is missing, a field has the wrong type, or
    [event_type] is outside the enumerated set. *)
Inductive schema_violation : json → Prop :=
  | violation_not_object reply :
      (∀ o, reply ≠ JObj o) → schema_violation reply
  | violation_missing o field :
      field ∈ ["event_type"; "summary"] →
      o !! field = None → schema_violation (JObj o)
  | violation_required_type o v :
      o !! "summary" = Some v → (∀ s, v ≠ JStr s) → schema_violation (JObj o)
  | violation_optional_type o field v :
      field ∈ ["app_name"; "file_path"] →
      o !! field = Some v → v ≠ JNull → (∀ s, v ≠ JStr s) →
      schema_violation (JObj o)
  | violation_enum o v :
      o !! "event_type" = Some v →
      (∀ s, v = JStr s → s ∉ event_type_names) →
      schema_violation (JObj o).

(** The world after some lines were printed, a request was sent. *)
Definition printed (w : world) (lines : list output) : world :=
  World (stdout w ++ lines) (llm_requests w) (evt_queries w).

Definition sent (w : world) (request : chat_request) : world :=
  World (stdout w) (llm_requests w ++ [request]) (evt_queries w).

(** What the [n]-th call of the service yields for a message, once the
    reply has gone through validation. *)
Definition llm_outcome (service : model_service) (n : nat) (message : string)
    : exn + ActivityLog :=
  match service n (llm_request message) with
  | Raises e => inl (ServiceError e)
  | Returns arguments =>
      match ActivityLog_validate arguments with
      | inl e => inl (ValidationFailed e)
      | inr response => inr response
      end
  end.

(** The messages of the events that no rule of the registry parses. *)
Fixpoint missed (registry : list parser) (g : generator) : list string :=
  match g with
  | GReturn => []
  | GYield provider message rest =>
      match parse_with_regex registry provider message with
      | Some _ => missed registry rest
      | None => message :: missed registry rest
      end
  | GPrint _ rest => missed registry rest
  end.

(** The reply of the scenario: [event_type] is not one of the four names. *)
Definition random_new_value_reply : json :=
  JObj {[ "event_type" := JStr "random_new_value";
          "summary" := JStr "User initiated shutdown for process" ]}.

(** The two shapes a record of the shipped funnel can have: the entries
    of the Application-Error handler, or the fields of the schema. *)
Definition handler_keys : gset string :=
  {[ "event_type"; "app_name"; "module_name"; "error_code" ]}.

Definition schema_keys : gset string :=
  {[ "event_type"; "app_name"; "file_path"; "summary" ]}.

Definition funnel_record (d : gmap string pyval) : Prop :=
  dom d = handler_keys ∨ dom d = schema_keys.

(** A reader that delivers one event no rule knows, and a service that
    times out. *)
Definition spooler_reader : event_reader :=
  λ _ _ _, QEvent "Service Control Manager"
                  "The Print Spooler service entered the stopped state." QEnd.

Definition timing_out : model_service := λ _ _, Raises "Request timed out.".

(** A query result that delivers the same event [n] times. *)
Fixpoint repeated (n : nat) (provider message : string) : evt_query :=
  match n with
  | O => QEnd
  | S n' => QEvent provider message (repeated n' provider message)
  end.

(** The crash event delivered twice. *)
Definition crash_twice : event_reader :=
  λ _ _ _, repeated 2 "Application Error" crash_message.

(** The events a query delivered before it failed, and the failure. *)
Fixpoint events_before_failure (q : evt_query) : evt_query :=
  match q with
  | QEvent provider message rest =>
      QEvent provider message (events_before_failure rest)
  | QEnd | QError _ => QEnd
  end.

Fixpoint failure (q : evt_query) : option string :=
  match q with
  | QEnd => None
  | QEvent _ _ rest => failure rest
  | QError e => Some e
  end.

(** A reader whose first query fails and whose later queries would
    deliver the crash event. *)
Definition flaky_reader : event_reader :=
  λ n _ _,
    match n with
    | O => QError "The RPC server is unavailable."
    | S _ => QEvent "Application Error" crash_message QEnd
    end.

(** The events one run of [process_logs] meets. *)
Definition fetched (reader : event_reader) (fetch_since : datetime) (w : world)
    : generator :=
  fetch_loop "Application"
    (reader (length (evt_queries w)) "Application"
            (xpath_query (strftime fetch_since))).

Definition queried (w : world) (fetch_since : datetime) : world :=
  World (stdout w) (llm_requests w)
        (evt_queries w ++ [("Application", xpath_query (strftime fetch_since))]).

(** Half past nine on 20 August 2025, UTC. *)
Definition half_past_nine : datetime := DateTime 2025 8 20 9 30 0 0.

(** ** Matching with the marks in view *)

Module ReRun.
Import Re ReSpec.

(** [run r s pos st st']: the whole of [s], which starts at offset [pos]
    of the subject, conforms to [r], and the marks met on the way turn
    the state [st] into [st']. *)
Inductive run : list node → string → nat → mstate → mstate → Prop :=
  | run_nil pos st : run [] "" pos st st
  | run_one cs c r s pos st st' :
      cs_mem cs c = true → run r s (S pos) st st' →
      run (One cs :: r) (String c s) pos st st'
  | run_star cs r x s pos st st' :
      all_in cs x = true → run r s (pos + String.length x) st st' →
      run (Star cs :: r) (x +:+ s) pos st st'
  | run_plus cs r c x s pos st st' :
      cs_mem cs c = true → all_in cs x = true →
      run r s (S pos + String.length x) st st' →
      run (Plus cs :: r) (String c (x +:+ s)) pos st st'
  | run_open n r s pos st st' :
      run r s pos (mark_open n pos st) st' → run (MarkOpen n :: r) s pos st st'
  | run_close n r s pos st st' :
      run r s pos (mark_close n pos st) st' → run (MarkClose n :: r) s pos st st'.

(** The nodes of a literal text. *)
Definition lits (text : string) : list node :=
  map (λ c, One (CLit c)) (list_ascii_of_string text).

(** The two bracketed sets of the Application-Error pattern. *)
Definition name_chars : charset := CIn [IWord; ILit "."].

Definition hex_chars : charset :=
  CIn [IRange "0" "9"; IRange "a" "f"; IRange "A" "F"].

End ReRun.

(** ** Crash reports and their records *)

(** A non-empty text over a character set. *)
Definition text_of (cs : Re.charset) (s : string) : Prop :=
  s ≠ "" ∧ ReSpec.all_in cs s = true.

(** A message that carries the three labelled values of a crash report,
    with free text before, between and after them. *)
Definition crash_report (before app gap1 module gap2 hex after : string) : string :=
  before +:+ "Faulting application name: " +:+ app +:+ ", " +:+ gap1
  +:+ "Faulting module name: " +:+ module +:+ ", " +:+ gap2
  +:+ "Exception code: 0x" +:+ hex +:+ after.

(** The record of a crash report. *)
Definition crash_fields (app module hex : string) : gmap string pyval :=
  {[ "event_type" := PyStr "application_crash";
     "app_name" := PyStr app;
     "module_name" := PyStr module;
     "error_code" := PyStr ("0x" +:+ hex) ]}.

(** ** Streams of events and what a run leaves on the console *)

(** The events a generator yields, in order, and the lines it prints. *)
Fixpoint events (g : generator) : list (string * string) :=
  match g with
  | GReturn => []
  | GYield provider message rest => (provider, message) :: events rest
  | GPrint _ rest => events rest
  end.

Fixpoint prints (g : generator) : list output :=
  match g with
  | GReturn => []
  | GYield _ _ rest => prints rest
  | GPrint line rest => line :: prints rest
  end.

(** One generator after another. *)
Fixpoint gen_app (g1 g2 : generator) : generator :=
  match g1 with
  | GReturn => g2
  | GYield provider message rest => GYield provider message (gen_app rest g2)
  | GPrint line rest => GPrint line (gen_app rest g2)
  end.

(** The events a query delivers before it ends or fails. *)
Fixpoint query_events (q : evt_query) : list (string * string) :=
  match q with
  | QEvent provider message rest => (provider, message) :: query_events rest
  | QEnd | QError _ => []
  end.

(** The records the deterministic layer alone adds for a stream. *)
Fixpoint deterministic_records (registry : list parser) (g : generator)
    : list (gmap string pyval) :=
  match g with
  | GReturn => []
  | GYield provider message rest =>
      match parse_with_regex registry provider message with
      | Some d =>
          if truthy d then d :: deterministic_records registry rest
          else deterministic_records registry rest
      | None => deterministic_records registry rest
      end
  | GPrint _ rest => deterministic_records registry rest
  end.

Definition is_llm_failed (line : output) : bool :=
  match line with
  | PrLLMFailed _ => true
  | _ => false
  end.

Definition is_regex_failed (line : output) : bool :=
  match line with
  | PrRegexFailed _ => true
  | _ => false
  end.

(** How many lines of a console report a failed extraction, a miss of the
    deterministic layer. *)
Definition llm_failures (lines : list output) : nat :=
  length (List.filter is_llm_failed lines).

Definition regex_misses (lines : list output) : nat :=
  length (List.filter is_regex_failed lines).

(** ** Records as JSON *)

Definition json_of_pyval (v : pyval) : json :=
  match v with
  | PyNone => JNull
  | PyStr s => JStr s
  end.

Definition json_of_dict (d : gmap string pyval) : json :=
  JObj (json_of_pyval <$> d).

(** The names of the schema's fields. *)
Definition schema_fields : list string :=
  ["event_type"; "app_name"; "file_path"; "summary"].

(** A reply that validates, and the record it becomes. *)
Definition shutdown_reply : json :=
  JObj {[ "event_type" := JStr "system_event";
          "summary" := JStr "User initiated shutdown" ]}.

Definition shutdown_record : gmap string pyval :=
  ActivityLog_dict (MkActivityLog system_event None None "User initiated shutdown").

(** A service that always sends [shutdown_reply]. *)
Definition shutdown_service : model_service := λ _ _, Returns shutdown_reply.

(** A reader that delivers the crash event and then the spooler event. *)
Definition mixed_reader : event_reader :=
  λ _ _ _,
    QEvent "Application Error" crash_message
      (QEvent "Service Control Manager"
              "The Print Spooler service entered the stopped state." QEnd).

(** The value [groupdict] holds for a group: the captured stretch, or
    [None] when the group took no part in the match. *)
Definition group_text (m : Re.match_obj) (name : string) : pyval :=
  match Re.m_caps m !! name with
  | Some span => PyStr (Re.slice (Re.m_string m) span)
  | None => PyNone
  end.

(** A match of a pattern that defines the group [app_name] only. *)
Definition app_only_match : Re.match_obj :=
  Re.Match "Faulting application name: app.exe" (27, 34)
           {[ "app_name" := (27, 34) ]} ["app_name"].

(** How many times a value occurs in a list. *)
Fixpoint occurrences {A : Type} `{EqDecision A} (x : A) (l : list A) : nat :=
  match l with
  | [] => 0
  | y :: rest => (if decide (y = x) then 1 else 0) + occurrences x rest
  end.

(** Another crash report, and a reader that delivers the crash event,
    then the other one, then the crash event again. *)
Definition other_crash_message : string :=
  "Faulting application name: b.exe, Faulting module name: n.dll, Exception code: 0x80000003".

Definition crash_other_crash : event_reader :=
  λ _ _ _,
    QEvent "Application Error" crash_message
      (QEvent "Application Error" other_crash_message
         (QEvent "Application Error" crash_message QEnd)).

(** The rule of the shipped registry. *)
Definition app_error_rule : parser :=
  Parser "Application Error" app_error_regex handle_app_error.

(** * Properties *)

(** ** The matcher finds exactly the patterns that occur *)

Module ReFacts.
Import Re ReSpec.

Lemma append_cons (c : ascii) (a b : string) :
  String c a +:+ b = String c (a +:+ b).
Proof. reflexivity. Qed.

Lemma append_assoc (a b c : string) : (a +:+ b) +:+ c = a +:+ (b +:+ c).
Proof.
  induction a as [|x a IH]; [reflexivity|].
  rewrite !append_cons. f_equal. exact IH.
Qed.

Lemma length_append (a b : string) :
  String.length (a +:+ b) = String.length a + String.length b.
Proof.
  induction a as [|x a IH]; [reflexivity|].
  rewrite append_cons. simpl. f_equal. exact IH.
Qed.

Section StarLoop.
Context {R : Type} (cs : charset) (k : string → nat → option R).

Lemma star_loop_base s pos :
  is_Some (k s pos) → is_Some (star_loop cs k s pos).
Proof.
  intros Hk. destruct s as [|c s]; simpl; [exact Hk|].
  destruct (cs_mem cs c); [|exact Hk].
  destruct (star_loop cs k s (S pos)); [eauto | exact Hk].
Qed.

(** If the continuation succeeds after some run of set characters, the
    greedy loop succeeds (perhaps after a longer run). *)
Lemma star_loop_complete x : ∀ s pos,
  all_in cs x = true →
  is_Some (k s (pos + String.length x)) →
  is_Some (star_loop cs k (x +:+ s) pos).
Proof.
  induction x as [|c x IH]; intros s pos Hall Hk.
  - apply star_loop_base. simpl in Hk. now rewrite Nat.add_0_r in Hk.
  - rewrite append_cons. cbn [star_loop all_in String.length] in *.
    apply andb_true_iff in Hall as [Hc Hall]. rewrite Hc.
    assert (is_Some (star_loop cs k (x +:+ s) (S pos))) as [r Hr].
    { apply IH; [exact Hall|].
      now replace (S pos + String.length x) with (pos + S (String.length x)) by lia. }
    rewrite Hr. eauto.
Qed.

(** Whatever the loop returns, the continuation returned it after a
    run of set characters. *)
Lemma star_loop_sound s : ∀ pos r,
  star_loop cs k s pos = Some r →
  ∃ x s', s = x +:+ s' ∧ all_in cs x = true
          ∧ k s' (pos + String.length x) = Some r.
Proof.
  assert (Hstop : ∀ s pos r, k s pos = Some r →
            ∃ x s', s = x +:+ s' ∧ all_in cs x = true
                    ∧ k s' (pos + String.length x) = Some r).
  { intros s0 pos r H. exists "", s0. simpl. now rewrite Nat.add_0_r. }
  induction s as [|c s IH]; intros pos r H; cbn [star_loop] in H.
  - now apply Hstop.
  - destruct (cs_mem cs c) eqn:Hc; [|now apply Hstop].
    destruct (star_loop cs k s (S pos)) as [r'|] eqn:Hl; [|now apply Hstop].
    inversion H; subst r'. apply IH in Hl as (x & s' & -> & Hall & Hk).
    exists (String c x), s'. cbn [all_in String.length]. rewrite Hc, Hall.
    repeat split.
    now replace (pos + S (String.length x)) with (S pos + String.length x) by lia.
Qed.
End StarLoop.

(** The matcher accepts at the head of the subject whatever conforms to
    the pattern, whatever follows. *)
Lemma match_here_complete r mid :
  matches r mid →
  ∀ after pos st, is_Some (match_here r (mid +:+ after) pos st).
Proof.
  induction 1 as [|cs c r s Hc _ IH|cs r x s Hx _ IH|cs r c x s Hc Hx _ IH
                 |n r s _ IH|n r s _ IH]; intros after pos st.
  - simpl. eauto.
  - simpl. rewrite Hc. apply IH.
  - rewrite append_assoc. cbn [match_here].
    apply star_loop_complete; [exact Hx | apply IH].
  - change (String c (x +:+ s) +:+ after) with (String c ((x +:+ s) +:+ after)).
    rewrite append_assoc. cbn [match_here]. rewrite Hc.
    apply star_loop_complete; [exact Hx | apply IH].
  - apply IH.
  - apply IH.
Qed.

(** And whatever the matcher accepts conforms to the pattern. *)
Lemma match_here_sound r : ∀ s pos st e st',
  match_here r s pos st = Some (e, st') →
  ∃ mid after, s = mid +:+ after ∧ matches r mid
               ∧ e = pos + String.length mid.
Proof.
  induction r as [|nd r IH]; intros s pos st e st' H; simpl in H.
  - inversion H; subst. exists "", s. simpl.
    repeat split; [apply matches_nil | lia].
  - destruct nd as [cs|cs|cs|n|n].
    + destruct s as [|c s]; [discriminate|].
      destruct (cs_mem cs c) eqn:Hc; [|discriminate].
      apply IH in H as (mid & after & -> & Hm & ->).
      exists (String c mid), after. simpl.
      repeat split; [now constructor | lia].
    + apply star_loop_sound in H as (x & s' & -> & Hx & H).
      apply IH in H as (mid & after & -> & Hm & ->).
      exists (x +:+ mid), after. rewrite append_assoc, length_append.
      repeat split; [now constructor | lia].
    + destruct s as [|c s]; [discriminate|].
      destruct (cs_mem cs c) eqn:Hc; [|discriminate].
      apply star_loop_sound in H as (x & s' & -> & Hx & H).
      apply IH in H as (mid & after & -> & Hm & ->).
      exists (String c (x +:+ mid)), after.
      rewrite append_cons, append_assoc. cbn [String.length].
      rewrite length_append.
      repeat split; [now constructor | lia].
    + apply IH in H as (mid & after & -> & Hm & ->).
      exists mid, after. repeat split; now constructor.
    + apply IH in H as (mid & after & -> & Hm & ->).
      exists mid, after. repeat split; now constructor.
Qed.

Lemma search_from_complete r mid after :
  matches r mid →
  ∀ before pos, is_Some (search_from r (before +:+ mid +:+ after) pos).
Proof.
  intros Hm. induction before as [|c before IH]; intros pos.
  - destruct (match_here_complete r mid Hm after pos ms_init) as [[e st] He].
    simpl. destruct (mid +:+ after); simpl in *; rewrite He; eauto.
  - simpl. destruct (match_here r _ pos ms_init) as [[e st]|]; [eauto|].
    apply IH.
Qed.

Lemma search_from_sound r : ∀ s pos b e st,
  search_from r s pos = Some (b, e, st) →
  ∃ before mid after, s = before +:+ mid +:+ after ∧ matches r mid.
Proof.
  assert (Hhere : ∀ s pos e st, match_here r s pos ms_init = Some (e, st) →
            ∃ before mid after, s = before +:+ mid +:+ after ∧ matches r mid).
  { intros s pos e st H.
    apply match_here_sound in H as (mid & after & Hs & Hmid & _).
    exists "", mid, after. now split. }
  induction s as [|c s IH]; intros pos b e st H; cbn [search_from] in H.
  - destruct (match_here r "" pos ms_init) as [[e' st']|] eqn:Hm; [|discriminate].
    eapply Hhere, Hm.
  - destruct (match_here r (String c s) pos ms_init) as [[e' st']|] eqn:Hm.
    + eapply Hhere, Hm.
    + apply IH in H as (before & mid & after & -> & Hmid).
      exists (String c before), mid, after. now split.
Qed.

Lemma append_nil_r (a : string) : a +:+ "" = a.
Proof.
  induction a as [|x a IH]; [reflexivity|].
  rewrite append_cons. f_equal. exact IH.
Qed.

(** A match at offset 0 that ends where the subject ends shows that the
    whole subject conforms. *)
Lemma matches_of_match_here r s st st' :
  match_here r s 0 st = Some (String.length s, st') → matches r s.
Proof.
  intros H. apply match_here_sound in H as (mid & after & Hs & Hm & He).
  subst s. rewrite length_append in He.
  destruct after as [|c after]; [|simpl in He; lia].
  now rewrite append_nil_r.
Qed.

(** [search] finds a match exactly when the pattern occurs in the
    message. *)
Lemma search_iff_occurs rx message :
  is_Some (search rx message) ↔ occurs_in rx message.
Proof.
  unfold search, occurs_in. split.
  - destruct (search_from (rx_nodes rx) message 0) as [[[b e] st]|] eqn:H.
    + intros _. eapply search_from_sound, H.
    + intros [? ?]; discriminate.
  - intros (before & mid & after & -> & Hm).
    destruct (search_from_complete _ mid after Hm before 0) as [[[b e] st] H].
    rewrite H. eauto.
Qed.

End ReFacts.

(** ** The pattern compiler and the matcher on small inputs *)

Example compile_set_and_group :
  Re.compile "(?P<code>0x[0-9a-f]+)"
  = inr (Re.Regex
           [ Re.MarkOpen "code"; Re.One (Re.CLit "0"); Re.One (Re.CLit "x");
             Re.Plus (Re.CIn [Re.IRange "0" "9"; Re.IRange "a" "f"]);
             Re.MarkClose "code" ]
           ["code"]).
Proof. reflexivity. Qed.

Example compile_unbalanced :
  Re.compile "(?P<code>0x" = inl (Re.BadPattern "missing ), unterminated subpattern").
Proof. reflexivity. Qed.

Example compile_double_repeat :
  Re.compile "a**" = inl (Re.BadPattern "multiple repeat").
Proof. reflexivity. Qed.

Example load_registry_malformed :
  load_registry [ ParserSource "Application Error" "name: (?P<app_name[\w]+)"
                               handle_app_error ]
  = inl (Re.BadPattern "missing >, unterminated name").
Proof. reflexivity. Qed.

(** The greedy [.*] gives characters back until the rest matches. *)
Example search_backtracks :
  (Re.groupdict <$> Re.search
     (Re.Regex [ Re.Star Re.CAny; Re.One (Re.CLit ",");
                 Re.MarkOpen "last"; Re.Plus (Re.CIn [Re.IWord]);
                 Re.MarkClose "last" ] ["last"])
     "a,b,c")
  = Some {[ "last" := PyStr "c" ]}.
Proof. vm_compute. reflexivity. Qed.

(** The dot does not cross a line feed. *)
Example dot_stops_at_line_feed :
  Re.search (Re.Regex [ Re.One (Re.CLit "a"); Re.Star Re.CAny;
                        Re.One (Re.CLit "b") ] [])
            ("a" +:+ LF +:+ "b")
  = None.
Proof. vm_compute. reflexivity. Qed.

Example other_provider_is_a_miss :
  parse_with_regex PARSER_REGISTRY "Service Control Manager" crash_message = None.
Proof. vm_compute. reflexivity. Qed.

(** ** The deterministic layer *)

Lemma parse_with_regex_cons p rest provider message :
  parse_with_regex (p :: rest) provider message =
  if bool_decide (provider_name p = provider) then
    match Re.search (regex p) message with
    | Some m => Some (handler p m)
    | None => parse_with_regex rest provider message
    end
  else parse_with_regex rest provider message.
Proof. reflexivity. Qed.

Lemma parse_with_regex_hit registry provider message record :
  parse_with_regex registry provider message = Some record →
  ∃ earlier p later m,
    registry = earlier ++ p :: later
    ∧ Forall (λ q, ¬ candidate provider message q) earlier
    ∧ provider_name p = provider
    ∧ Re.search (regex p) message = Some m
    ∧ record = handler p m.
Proof.
  induction registry as [|q rest IH]; [discriminate|].
  rewrite parse_with_regex_cons. intros H.
  assert (Hrest : parse_with_regex rest provider message = Some record →
                  ¬ candidate provider message q →
                  ∃ earlier p later m,
                    q :: rest = earlier ++ p :: later
                    ∧ Forall (λ q, ¬ candidate provider message q) earlier
                    ∧ provider_name p = provider
                    ∧ Re.search (regex p) message = Some m
                    ∧ record = handler p m).
  { intros Hr Hq. destruct (IH Hr) as (earlier & p & later & m & -> & Hf & Hp & Hm & ->).
    exists (q :: earlier), p, later, m. repeat split; auto. }
  case_bool_decide as Hprov.
  - destruct (Re.search (regex q) message) as [m|] eqn:Hm.
    + inversion H; subst record. exists [], q, rest, m. repeat split; auto.
    + apply Hrest; [exact H|]. intros [_ [m' Hm']]. congruence.
  - apply Hrest; [exact H|]. intros [Hp _]. contradiction.
Qed.

Lemma parse_with_regex_miss registry provider message :
  parse_with_regex registry provider message = None →
  Forall (λ q, ¬ candidate provider message q) registry.
Proof.
  induction registry as [|q rest IH]; [constructor|].
  rewrite parse_with_regex_cons. intros H.
  case_bool_decide as Hprov.
  - destruct (Re.search (regex q) message) as [m|] eqn:Hm; [discriminate|].
    constructor; [|auto]. intros [_ [m' Hm']]. congruence.
  - constructor; [|auto]. intros [Hp _]. contradiction.
Qed.

Lemma parse_with_regex_candidate registry provider message p :
  p ∈ registry → candidate provider message p →
  is_Some (parse_with_regex registry provider message).
Proof.
  intros Hin Hc.
  destruct (parse_with_regex registry provider message) eqn:H; [eauto|].
  apply parse_with_regex_miss in H. rewrite Forall_forall in H.
  destruct (H p Hin Hc).
Qed.

Lemma load_registry_spec entries :
  match load_registry entries with
  | inr registry =>
      Forall2 (λ e p, Re.compile (src_pattern e) = inr (regex p)
                      ∧ provider_name p = src_provider_name e
                      ∧ handler p = src_handler e) entries registry
  | inl err => Exists (λ e, Re.compile (src_pattern e) = inl err) entries
  end.
Proof.
  induction entries as [|e rest IH]; simpl; [constructor|].
  destruct (Re.compile (src_pattern e)) as [err|rx] eqn:Hc.
  - now apply Exists_cons_hd.
  - destruct (load_registry rest) as [err|ps].
    + now apply Exists_cons_tl.
    + constructor; [|exact IH]. simpl. auto.
Qed.

Lemma PARSER_REGISTRY_loaded :
  load_registry PARSER_REGISTRY_source = inr PARSER_REGISTRY.
Proof. vm_compute. reflexivity. Qed.

(** C1.  [parse_with_regex] returns the record built by the first rule,
    in registration order, whose provider equals the event's and whose
    pattern is found in the message; when there is no such rule it returns
    [None], an ordinary result.  Patterns are compiled when the registry
    is loaded: a registry exists only if every pattern compiled, each
    rule then holds the compiled pattern, and parsing consults nothing
    else; the shipped registry does load. *)
Theorem parse_with_regex_first_match :
  (∀ registry provider message,
     match parse_with_regex registry provider message with
     | Some record =>
         ∃ earlier p later m,
           registry = earlier ++ p :: later
           ∧ Forall (λ q, ¬ candidate provider message q) earlier
           ∧ provider_name p = provider
           ∧ Re.search (regex p) message = Some m
           ∧ record = handler p m
     | None => Forall (λ q, ¬ candidate provider message q) registry
     end)
  ∧ (∀ entries,
       match load_registry entries with
       | inr registry =>
           Forall2 (λ e p, Re.compile (src_pattern e) = inr (regex p)
                           ∧ provider_name p = src_provider_name e
                           ∧ handler p = src_handler e) entries registry
       | inl err => Exists (λ e, Re.compile (src_pattern e) = inl err) entries
       end)
  ∧ load_registry PARSER_REGISTRY_source = inr PARSER_REGISTRY.
Proof.
  split; [|split].
  - intros registry provider message.
    destruct (parse_with_regex registry provider message) as [record|] eqn:H.
    + now apply parse_with_regex_hit.
    + now apply parse_with_regex_miss.
  - apply load_registry_spec.
  - apply PARSER_REGISTRY_loaded.
Qed.

(** C10.  A rule of the registry makes the parser succeed whenever its
    pattern conforms to some stretch of the message, whatever text comes
    before and after that stretch: the search of the rule's pattern finds
    a match, and the parser returns the record that the handler of the
    first candidate rule -- this rule, unless an earlier rule of the same
    provider also matches -- builds from the match its own search found. *)
Theorem parse_with_regex_substring registry p before mid after :
  p ∈ registry →
  ReSpec.matches (Re.rx_nodes (regex p)) mid →
  let message := before +:+ mid +:+ after in
  is_Some (Re.search (regex p) message)
  ∧ ∃ earlier q later m,
      registry = earlier ++ q :: later
      ∧ Forall (λ r, ¬ candidate (provider_name p) message r) earlier
      ∧ p ∈ q :: later
      ∧ provider_name q = provider_name p
      ∧ Re.search (regex q) message = Some m
      ∧ parse_with_regex registry (provider_name p) message
        = Some (handler q m).
Proof.
  intros Hin Hm message.
  assert (Hfound : is_Some (Re.search (regex p) message)).
  { apply ReFacts.search_iff_occurs. exists before, mid, after. now split. }
  assert (Hcand : candidate (provider_name p) message p) by now split.
  split; [exact Hfound|].
  destruct (parse_with_regex_candidate registry _ _ p Hin Hcand) as [d Hd].
  destruct (parse_with_regex_hit _ _ _ _ Hd)
    as (earlier & q & later & m & Hsplit & Hearlier & Hq & Hs & ->).
  exists earlier, q, later, m. repeat split; try assumption.
  rewrite Hsplit in Hin. apply elem_of_app in Hin as [Hin|Hin]; [|exact Hin].
  rewrite Forall_forall in Hearlier. destruct (Hearlier p Hin Hcand).
Qed.

Lemma parse_with_regex_substring_witness :
  let message := "Report 17: " +:+ crash_message +:+ " (end of report)" in
  is_Some (Re.search (regex app_error_rule) message)
  ∧ ∃ earlier q later m,
      PARSER_REGISTRY = earlier ++ q :: later
      ∧ Forall (λ r, ¬ candidate (provider_name app_error_rule) message r) earlier
      ∧ app_error_rule ∈ q :: later
      ∧ provider_name q = provider_name app_error_rule
      ∧ Re.search (regex q) message = Some m
      ∧ parse_with_regex PARSER_REGISTRY (provider_name app_error_rule) message
        = Some (handler q m).
Proof.
  apply (parse_with_regex_substring PARSER_REGISTRY app_error_rule
           "Report 17: " crash_message " (end of report)").
  - vm_compute. apply list_elem_of_here.
  - apply (ReFacts.matches_of_match_here _ _ Re.ms_init
             (snd (default (0, Re.ms_init)
                     (Re.match_here (Re.rx_nodes app_error_regex)
                                    crash_message 0 Re.ms_init)))).
    vm_compute. reflexivity.
Defined.

Lemma parse_crash_message :
  parse_with_regex PARSER_REGISTRY "Application Error" crash_message
  = Some crash_record.
Proof. vm_compute. reflexivity. Qed.

(** C5, as stated, fails: the record built for the crash message has no
    [extraction_method] entry, so it cannot read [deterministic]. *)
Lemma crash_record_extraction_method_absent :
  parse_with_regex PARSER_REGISTRY "Application Error" crash_message
  = Some crash_record
  ∧ crash_record !! "extraction_method" = None
  ∧ crash_record !! "extraction_method" ≠ Some (PyStr "deterministic").
Proof.
  split; [exact parse_crash_message|].
  split; [vm_compute; reflexivity | vm_compute; discriminate].
Qed.

(** C5, amended.  The crash message is parsed by the Application-Error
    rule into the four entries the handler writes -- [event_type] is
    [application_crash], [app_name] is [app.exe] -- with no
    [extraction_method] entry; the funnel step for this event appends
    that record and leaves the world as it was: no request to the model
    service, no output. *)
Theorem crash_message_parsed_without_model_call :
  parse_with_regex PARSER_REGISTRY "Application Error" crash_message
  = Some crash_record
  ∧ crash_record !! "event_type" = Some (PyStr "application_crash")
  ∧ crash_record !! "app_name" = Some (PyStr "app.exe")
  ∧ crash_record !! "module_name" = Some (PyStr "k.dll")
  ∧ crash_record !! "error_code" = Some (PyStr "0xC0000005")
  ∧ crash_record !! "extraction_method" = None
  ∧ ∀ service parsed_logs w,
      funnel_step service PARSER_REGISTRY "Application Error" crash_message
                  parsed_logs w
      = (parsed_logs ++ [crash_record], w).
Proof.
  split; [exact parse_crash_message|].
  repeat (split; [vm_compute; reflexivity|]).
  intros service parsed_logs w.
  unfold funnel_step. rewrite parse_crash_message. reflexivity.
Qed.

(** ** The constrained extraction *)

Lemma parse_event_type_Some s t :
  parse_event_type s = Some t → s = event_type_name t ∧ s ∈ event_type_names.
Proof.
  unfold parse_event_type, event_type_names.
  repeat case_bool_decide; intros Heq; inversion Heq; subst; simpl;
    split; try reflexivity; set_solver.
Qed.

Lemma parse_event_type_None s :
  parse_event_type s = None ↔ s ∉ event_type_names.
Proof.
  unfold parse_event_type, event_type_names. split.
  - intros Hp Hin. rewrite !elem_of_cons in Hin.
    repeat case_bool_decide; try discriminate.
    destruct Hin as [?|[?|[?|[?|Hnil]]]]; try contradiction.
    now apply elem_of_nil in Hnil.
  - intros Hn. rewrite !not_elem_of_cons in Hn.
    destruct Hn as (? & ? & ? & ? & _).
    repeat case_bool_decide; try contradiction. reflexivity.
Qed.

(** A reply that violates the schema does not validate. *)
Lemma schema_violation_rejected reply :
  schema_violation reply → ∃ e, ActivityLog_validate reply = inl e.
Proof.
  assert (Hopt : ∀ o f v, o !! f = Some v → v ≠ JNull → (∀ s, v ≠ JStr s) →
                   validate_optional_str f o = inl (WrongType f)).
  { intros o f v Hv Hnull Hstr. unfold validate_optional_str. rewrite Hv.
    destruct v; try reflexivity; [congruence | edestruct Hstr; reflexivity]. }
  intros Hviol.
  destruct Hviol as [r Hno|o field Hf Hm|o v Hv Hs|o field v Hf Hv Hnull Hs|o v Hv He].
  - destruct r; simpl; eauto. edestruct Hno; reflexivity.
  - simpl. unfold validate_event_type, validate_str.
    apply elem_of_cons in Hf as [->|Hf].
    + rewrite Hm. eauto.
    + apply list_elem_of_singleton in Hf as ->.
      destruct (o !! "event_type") as [[| | |s| |]|]; eauto.
      destruct (parse_event_type s); eauto.
      destruct (validate_optional_str "app_name" o); eauto.
      destruct (validate_optional_str "file_path" o); eauto.
      rewrite Hm. eauto.
  - simpl. destruct (validate_event_type o); eauto.
    destruct (validate_optional_str "app_name" o); eauto.
    destruct (validate_optional_str "file_path" o); eauto.
    unfold validate_str. rewrite Hv.
    destruct v; eauto. edestruct Hs; reflexivity.
  - simpl. destruct (validate_event_type o); eauto.
    apply elem_of_cons in Hf as [->|Hf].
    + rewrite (Hopt _ _ _ Hv Hnull Hs). eauto.
    + apply list_elem_of_singleton in Hf as ->.
      destruct (validate_optional_str "app_name" o); eauto.
      rewrite (Hopt _ _ _ Hv Hnull Hs). eauto.
  - simpl. unfold validate_event_type. rewrite Hv.
    destruct v as [| | |s| |]; eauto.
    destruct (parse_event_type s) as [t|] eqn:Ht; eauto.
    apply parse_event_type_Some in Ht as [_ Hin].
    destruct (He s eq_refl Hin).
Qed.

(** And a reply that does not validate violates the schema in one of the
    listed ways. *)
Lemma rejected_schema_violation reply e :
  ActivityLog_validate reply = inl e → schema_violation reply.
Proof.
  destruct reply as [| | | | |o];
    try (intros _; apply violation_not_object; intros o; discriminate).
  simpl. unfold validate_event_type.
  destruct (o !! "event_type") as [v|] eqn:Hv;
    [|intros _; apply (violation_missing o "event_type"); [set_solver|exact Hv]].
  assert (Henum : (∀ s, v = JStr s → parse_event_type s = None) →
                  schema_violation (JObj o)).
  { intros Hp. apply (violation_enum o v Hv). intros s ->.
    now apply parse_event_type_None, Hp. }
  destruct v as [| | |s| |]; try (intros _; apply Henum; intros s; discriminate).
  destruct (parse_event_type s) as [t|] eqn:Ht;
    [|intros _; apply Henum; intros s' [= <-]; exact Ht].
  clear Henum.
  assert (Hopt : ∀ f r, f ∈ ["app_name"; "file_path"] →
                   validate_optional_str f o = inl r → schema_violation (JObj o)).
  { intros f r Hf. unfold validate_optional_str.
    destruct (o !! f) as [w|] eqn:Hw; [|discriminate].
    destruct w; try discriminate; intros _;
      apply (violation_optional_type o f _ Hf Hw); try discriminate;
      intros s'; discriminate. }
  destruct (validate_optional_str "app_name" o) as [r|a] eqn:Ha;
    [intros _; apply (Hopt "app_name" r); [set_solver|exact Ha]|].
  destruct (validate_optional_str "file_path" o) as [r|f] eqn:Hf;
    [intros _; apply (Hopt "file_path" r); [set_solver|exact Hf]|].
  unfold validate_str.
  destruct (o !! "summary") as [w|] eqn:Hw;
    [|intros _; apply (violation_missing o "summary"); [set_solver|exact Hw]].
  destruct w; try discriminate; intros _;
    apply (violation_required_type o _ Hw); intros s'; discriminate.
Qed.

(** ** The funnel, step by step *)

Ltac unfold_M :=
  unfold mbind, mret, M_bind, M_ret, bind, ret, print in *.

Section FunnelFacts.

Variable service : model_service.

Lemma parse_with_llm_eq message w :
  parse_with_llm service message w =
  match llm_outcome service (length (llm_requests w)) message with
  | inr response => (Some (ActivityLog_dict response), sent w (llm_request message))
  | inl e => (None, printed (sent w (llm_request message)) [PrLLMFailed e])
  end.
Proof.
  unfold parse_with_llm, chat_completions_create, llm_outcome. unfold_M.
  destruct (service _ _) as [e|arguments]; [reflexivity|].
  destruct (ActivityLog_validate arguments); reflexivity.
Qed.

Lemma ActivityLog_dict_truthy a : truthy (ActivityLog_dict a) = true.
Proof.
  unfold truthy, ActivityLog_dict. case_bool_decide as H; [|reflexivity].
  now apply insert_non_empty in H.
Qed.

Variable registry : list parser.

Lemma funnel_step_eq provider message parsed_logs w :
  funnel_step service registry provider message parsed_logs w =
  match parse_with_regex registry provider message with
  | Some d => (if truthy d then parsed_logs ++ [d] else parsed_logs, w)
  | None =>
      let w1 := sent (printed w [PrRegexFailed provider]) (llm_request message) in
      match llm_outcome service (length (llm_requests w)) message with
      | inr response => (parsed_logs ++ [ActivityLog_dict response], w1)
      | inl e => (parsed_logs, printed w1 [PrLLMFailed e])
      end
  end.
Proof.
  unfold funnel_step.
  destruct (parse_with_regex registry provider message) as [d|].
  - unfold_M. destruct (truthy d); reflexivity.
  - unfold mbind, M_bind, bind at 1. unfold mbind, M_bind, bind at 1.
    unfold print at 1. rewrite parse_with_llm_eq. cbn [llm_requests printed].
    destruct (llm_outcome service (length (llm_requests w)) message) as [e|a].
    + reflexivity.
    + rewrite ActivityLog_dict_truthy. reflexivity.
Qed.

Lemma funnel_step_requests provider message parsed_logs w :
  llm_requests (snd (funnel_step service registry provider message parsed_logs w))
  = llm_requests w
    ++ match parse_with_regex registry provider message with
       | Some _ => []
       | None => [llm_request message]
       end.
Proof.
  rewrite funnel_step_eq.
  destruct (parse_with_regex registry provider message) as [d|].
  - simpl. now rewrite app_nil_r.
  - cbv zeta. destruct (llm_outcome _ _ _); reflexivity.
Qed.

Lemma funnel_step_queries provider message parsed_logs w :
  evt_queries (snd (funnel_step service registry provider message parsed_logs w))
  = evt_queries w.
Proof.
  rewrite funnel_step_eq.
  destruct (parse_with_regex registry provider message) as [d|]; [reflexivity|].
  cbv zeta. destruct (llm_outcome _ _ _); reflexivity.
Qed.

Lemma for_each_yield provider message rest parsed_logs w :
  for_each service registry (GYield provider message rest) parsed_logs w =
  for_each service registry rest
    (fst (funnel_step service registry provider message parsed_logs w))
    (snd (funnel_step service registry provider message parsed_logs w)).
Proof.
  cbn [for_each]. unfold mbind, M_bind, bind.
  destruct (funnel_step _ _ _ _ _ _). reflexivity.
Qed.

Lemma for_each_print line rest parsed_logs w :
  for_each service registry (GPrint line rest) parsed_logs w =
  for_each service registry rest parsed_logs (printed w [line]).
Proof. reflexivity. Qed.

Lemma for_each_requests g : ∀ parsed_logs w,
  llm_requests (snd (for_each service registry g parsed_logs w))
  = llm_requests w ++ map llm_request (missed registry g).
Proof.
  induction g as [|provider message rest IH|line rest IH]; intros parsed_logs w.
  - simpl. now rewrite app_nil_r.
  - rewrite for_each_yield, IH, funnel_step_requests. cbn [missed].
    destruct (parse_with_regex registry provider message);
      now rewrite <- app_assoc.
  - rewrite for_each_print, IH. reflexivity.
Qed.

Lemma for_each_queries g : ∀ parsed_logs w,
  evt_queries (snd (for_each service registry g parsed_logs w)) = evt_queries w.
Proof.
  induction g as [|provider message rest IH|line rest IH]; intros parsed_logs w.
  - reflexivity.
  - now rewrite for_each_yield, IH, funnel_step_queries.
  - now rewrite for_each_print, IH.
Qed.

Variable reader : event_reader.

Lemma process_logs_with_eq fetch_since w :
  process_logs_with service reader registry fetch_since w =
  let w1 := queried (printed w [PrFetching "Application" (datetime_str fetch_since)]) fetch_since in
  let run := for_each service registry (fetched reader fetch_since w) [] w1 in
  (fst run,
   printed (printed (snd run) [PrSuccess (length (fst run))]) [PrLogs (fst run)]).
Proof.
  unfold process_logs_with, fetch_windows_event_logs, fetched. unfold_M.
  cbn [evt_queries]. cbv zeta.
  destruct (for_each _ _ _ _ _) as [logs w']. reflexivity.
Qed.

End FunnelFacts.

(** C2.  When the call of the model service raises (a time-out included)
    or its reply violates the schema -- a required field missing, a field
    of the wrong type, [event_type] outside the enumerated set -- the
    extraction returns [None]: no record, partial or defaulted, comes
    back. *)
Theorem invalid_reply_is_unresolved service message w :
  (∃ e, service (length (llm_requests w)) (llm_request message) = Raises e)
  ∨ (∃ reply, service (length (llm_requests w)) (llm_request message)
              = Returns reply ∧ schema_violation reply) →
  fst (parse_with_llm service message w) = None.
Proof.
  intros H. rewrite parse_with_llm_eq. unfold llm_outcome.
  destruct H as [[e ->]|(reply & -> & Hv)]; [reflexivity|].
  apply schema_violation_rejected in Hv as [e ->]. reflexivity.
Qed.

Lemma invalid_reply_is_unresolved_witness :
  fst (parse_with_llm (λ _ _, Returns random_new_value_reply)
                      "User initiated shutdown for process" world0) = None.
Proof.
  apply (invalid_reply_is_unresolved (λ _ _, Returns random_new_value_reply)
           "User initiated shutdown for process" world0).
  right. exists random_new_value_reply. split; [reflexivity|].
  apply (violation_enum _ (JStr "random_new_value")); [reflexivity|].
  intros s [= <-]. apply parse_event_type_None. vm_compute. reflexivity.
Defined.

(** A record comes back only from a reply that validates, and it holds
    that reply's fields. *)
Lemma parse_with_llm_Some service message w d :
  fst (parse_with_llm service message w) = Some d →
  ∃ reply response,
    service (length (llm_requests w)) (llm_request message) = Returns reply
    ∧ ActivityLog_validate reply = inr response
    ∧ d = ActivityLog_dict response.
Proof.
  rewrite parse_with_llm_eq. unfold llm_outcome.
  destruct (service _ _) as [e|reply]; [discriminate|].
  destruct (ActivityLog_validate reply) as [e|response] eqn:Hv; [discriminate|].
  intros [= <-]. eauto.
Qed.

(** ** The orchestrator *)

(** C3.  An event whose message matches the pattern of a registered rule
    for its provider goes through the funnel step without touching the
    world: no request reaches the model service.  In general a step sends
    one request exactly when the deterministic parse is a miss, and over
    a whole run the requests sent are those of the missed events, in
    order. *)
Theorem model_called_only_on_miss service reader registry :
  (∀ q provider message parsed_logs w,
     q ∈ registry → candidate provider message q →
     snd (funnel_step service registry provider message parsed_logs w) = w)
  ∧ (∀ provider message parsed_logs w,
       llm_requests (snd (funnel_step service registry provider message
                                      parsed_logs w))
       = llm_requests w
         ++ match parse_with_regex registry provider message with
            | Some _ => []
            | None => [llm_request message]
            end)
  ∧ (∀ fetch_since w,
       llm_requests (snd (process_logs_with service reader registry fetch_since w))
       = llm_requests w
         ++ map llm_request (missed registry (fetched reader fetch_since w))).
Proof.
  split; [|split].
  - intros q provider message parsed_logs w Hin Hc.
    destruct (parse_with_regex_candidate registry provider message q Hin Hc)
      as [d Hd].
    rewrite funnel_step_eq, Hd. reflexivity.
  - apply funnel_step_requests.
  - intros fetch_since w. rewrite process_logs_with_eq. cbv zeta.
    cbn [snd printed llm_requests]. rewrite for_each_requests. reflexivity.
Qed.

Lemma PARSER_REGISTRY_eq :
  PARSER_REGISTRY = [Parser "Application Error" app_error_regex handle_app_error].
Proof. vm_compute. reflexivity. Qed.

Lemma crash_message_candidate :
  candidate "Application Error" crash_message
            (Parser "Application Error" app_error_regex handle_app_error).
Proof.
  split; [reflexivity|]. cbn [regex].
  destruct (Re.search app_error_regex crash_message) eqn:Hs; [eauto|].
  vm_compute in Hs. discriminate.
Qed.

Lemma model_called_only_on_miss_witness :
  snd (funnel_step timing_out PARSER_REGISTRY "Application Error" crash_message
                   [] world0) = world0.
Proof.
  apply (proj1 (model_called_only_on_miss timing_out crash_twice PARSER_REGISTRY)
           (Parser "Application Error" app_error_regex handle_app_error)).
  - rewrite PARSER_REGISTRY_eq. apply list_elem_of_here.
  - exact crash_message_candidate.
Defined.

Lemma handle_app_error_dom m : dom (handle_app_error m) = handler_keys.
Proof.
  unfold handle_app_error, handler_keys.
  rewrite !dom_insert_L, dom_singleton_L. set_solver.
Qed.

Lemma ActivityLog_dict_dom a : dom (ActivityLog_dict a) = schema_keys.
Proof.
  unfold ActivityLog_dict, schema_keys.
  rewrite !dom_insert_L, dom_singleton_L. set_solver.
Qed.

Lemma funnel_record_no_provenance d :
  funnel_record d → d !! "extraction_method" = None ∧ d !! "decision" = None.
Proof.
  intros Hd. split; apply not_elem_of_dom;
    destruct Hd as [-> | ->]; unfold handler_keys, schema_keys;
    rewrite !elem_of_union, !elem_of_singleton;
    intros Hk; decompose [or] Hk; discriminate.
Qed.

Lemma PARSER_REGISTRY_records provider message d :
  parse_with_regex PARSER_REGISTRY provider message = Some d → funnel_record d.
Proof.
  intros H. apply parse_with_regex_hit in H
    as (earlier & p & later & m & Hsplit & _ & _ & _ & ->).
  assert (Hin : p ∈ PARSER_REGISTRY).
  { rewrite Hsplit. apply elem_of_app. right. apply list_elem_of_here. }
  rewrite PARSER_REGISTRY_eq in Hin. apply list_elem_of_singleton in Hin as ->.
  left. apply handle_app_error_dom.
Qed.

Lemma for_each_records service g : ∀ parsed_logs w,
  Forall funnel_record parsed_logs →
  Forall funnel_record (fst (for_each service PARSER_REGISTRY g parsed_logs w)).
Proof.
  induction g as [|provider message rest IH|line rest IH];
    intros parsed_logs w Hlogs.
  - exact Hlogs.
  - rewrite for_each_yield. apply IH. rewrite funnel_step_eq.
    destruct (parse_with_regex PARSER_REGISTRY provider message) as [d|] eqn:Hd.
    + cbn [fst]. destruct (truthy d); [|exact Hlogs].
      apply Forall_app. split; [exact Hlogs|].
      constructor; [|constructor]. eapply PARSER_REGISTRY_records, Hd.
    + cbv zeta. destruct (llm_outcome _ _ _) as [e|a]; [exact Hlogs|].
      cbn [fst]. apply Forall_app. split; [exact Hlogs|].
      constructor; [|constructor]. right. apply ActivityLog_dict_dom.
  - rewrite for_each_print. now apply IH.
Qed.

(** C6, as stated, fails: an event that both layers fail on leaves no
    record at all -- the run returns the empty list and only two console
    lines mention the event. *)
Lemma unresolved_event_is_dropped :
  let run := process_logs timing_out spooler_reader half_past_nine world0 in
  fst run = []
  ∧ stdout (snd run)
    = [ PrFetching "Application" "2025-08-20 09:30:00+00:00";
        PrRegexFailed "Service Control Manager";
        PrLLMFailed (ServiceError "Request timed out.");
        PrSuccess 0;
        PrLogs [] ].
Proof. vm_compute. split; reflexivity. Qed.

(** C6, amended.  When both layers fail on an event, the funnel step
    keeps the list of records as it was and prints two lines, one for the
    deterministic miss and one for the failed extraction; nothing else
    records the event.  Every record of a run of the shipped funnel has
    the handler's four entries or the schema's four fields, hence neither
    an [extraction_method] nor a classification entry. *)
Theorem unresolved_event_only_printed service reader :
  (∀ registry provider message parsed_logs w e,
     parse_with_regex registry provider message = None →
     llm_outcome service (length (llm_requests w)) message = inl e →
     funnel_step service registry provider message parsed_logs w
     = (parsed_logs,
        printed (sent (printed w [PrRegexFailed provider]) (llm_request message))
                [PrLLMFailed e]))
  ∧ (∀ fetch_since w record,
       record ∈ fst (process_logs service reader fetch_since w) →
       funnel_record record
       ∧ record !! "extraction_method" = None
       ∧ record !! "decision" = None).
Proof.
  split.
  - intros registry provider message parsed_logs w e Hmiss Hllm.
    rewrite funnel_step_eq, Hmiss. cbv zeta. rewrite Hllm. reflexivity.
  - intros fetch_since w record Hin. unfold process_logs in Hin.
    rewrite process_logs_with_eq in Hin. cbv zeta in Hin. cbn [fst] in Hin.
    assert (Hrec : funnel_record record).
    { eapply Forall_forall; [|exact Hin]. apply for_each_records. constructor. }
    split; [exact Hrec|]. now apply funnel_record_no_provenance.
Qed.

Lemma unresolved_event_only_printed_witness :
  funnel_step timing_out PARSER_REGISTRY "Service Control Manager"
              "The Print Spooler service entered the stopped state." [] world0
  = ([], printed (sent (printed world0 [PrRegexFailed "Service Control Manager"])
                       (llm_request
                          "The Print Spooler service entered the stopped state."))
                 [PrLLMFailed (ServiceError "Request timed out.")]).
Proof.
  apply (proj1 (unresolved_event_only_printed timing_out spooler_reader)).
  - vm_compute. reflexivity.
  - vm_compute. reflexivity.
Defined.

(** *** Duplicated events *)

Lemma for_each_repeated service registry provider message d :
  parse_with_regex registry provider message = Some d →
  truthy d = true →
  ∀ n channel parsed_logs w,
    for_each service registry
             (fetch_loop channel (repeated n provider message)) parsed_logs w
    = (parsed_logs ++ replicate n d, w).
Proof.
  intros Hd Ht. induction n as [|n IH]; intros channel parsed_logs w.
  - simpl. now rewrite app_nil_r.
  - cbn [repeated fetch_loop]. rewrite for_each_yield, funnel_step_eq, Hd, Ht.
    cbn [fst snd]. rewrite IH. cbn [replicate].
    now rewrite <- app_assoc.
Qed.

(** C8, as stated, fails: the same event read twice leaves two records. *)
Lemma duplicated_event_recorded_twice :
  fst (process_logs timing_out crash_twice half_past_nine world0)
  = [crash_record; crash_record].
Proof. vm_compute. reflexivity. Qed.

Lemma occurrences_nil {A : Type} `{EqDecision A} (x : A) : occurrences x [] = 0.
Proof. reflexivity. Qed.

Lemma occurrences_cons {A : Type} `{EqDecision A} (x y : A) (l : list A) :
  occurrences x (y :: l) = (if decide (y = x) then 1 else 0) + occurrences x l.
Proof. reflexivity. Qed.

Lemma occurrences_app {A : Type} `{EqDecision A} (x : A) (l1 l2 : list A) :
  occurrences x (l1 ++ l2) = occurrences x l1 + occurrences x l2.
Proof.
  induction l1 as [|y l1 IH]; [reflexivity|].
  rewrite <- app_comm_cons, !occurrences_cons, IH. lia.
Qed.

(** Whatever the event, the step keeps the records it was given in front
    and adds at most what it extracted. *)
Lemma funnel_step_keeps service registry provider message parsed_logs w :
  ∃ new,
    fst (funnel_step service registry provider message parsed_logs w)
    = parsed_logs ++ new.
Proof.
  rewrite funnel_step_eq.
  destruct (parse_with_regex registry provider message) as [d|].
  - destruct (truthy d); [now exists [d]|]. exists []. cbn. now rewrite app_nil_r.
  - cbv zeta. destruct (llm_outcome _ _ _) as [e|a]; [|now exists [ActivityLog_dict a]].
    exists []. cbn. now rewrite app_nil_r.
Qed.

Lemma for_each_occurrences service registry provider message d :
  parse_with_regex registry provider message = Some d →
  truthy d = true →
  ∀ g parsed_logs w,
    (occurrences d parsed_logs + occurrences (provider, message) (events g)
     ≤ occurrences d (fst (for_each service registry g parsed_logs w)))%nat.
Proof.
  intros Hd Ht.
  induction g as [|provider' message' rest IH|line rest IH]; intros parsed_logs w.
  - cbn [events for_each]. rewrite occurrences_nil.
    change (fst (ret parsed_logs w)) with parsed_logs. lia.
  - rewrite for_each_yield. cbn [events]. rewrite occurrences_cons.
    pose proof (IH (fst (funnel_step service registry provider' message' parsed_logs w))
                   (snd (funnel_step service registry provider' message' parsed_logs w)))
      as Hrest.
    destruct (funnel_step_keeps service registry provider' message' parsed_logs w)
      as [new Hnew].
    destruct (decide ((provider', message') = (provider, message))) as [Heq|Hne].
    + injection Heq as -> ->.
      assert (Hd1 : fst (funnel_step service registry provider message parsed_logs w)
                    = parsed_logs ++ [d]) by now rewrite funnel_step_eq, Hd, Ht.
      rewrite Hd1 in Hrest |- *.
      rewrite occurrences_app, occurrences_cons, occurrences_nil in Hrest.
      rewrite decide_True in Hrest by reflexivity. lia.
    + rewrite Hnew in Hrest |- *. rewrite occurrences_app in Hrest. lia.
  - rewrite for_each_print. cbn [events]. apply IH.
Qed.

Lemma for_each_deterministic_sublist service registry g : ∀ parsed_logs w,
  ∃ new,
    fst (for_each service registry g parsed_logs w) = parsed_logs ++ new
    ∧ deterministic_records registry g `sublist_of` new.
Proof.
  induction g as [|provider message rest IH|line rest IH]; intros parsed_logs w.
  - exists []. cbn. rewrite app_nil_r. split; [reflexivity|constructor].
  - rewrite for_each_yield, funnel_step_eq. cbn [deterministic_records].
    destruct (parse_with_regex registry provider message) as [d|].
    + cbn [fst snd]. destruct (truthy d).
      * destruct (IH (parsed_logs ++ [d]) w) as (new & -> & Hsub).
        exists (d :: new). rewrite <- app_assoc. split; [reflexivity|].
        now apply sublist_skip.
      * apply IH.
    + cbv zeta. destruct (llm_outcome _ _ _) as [e|a]; cbn [fst snd].
      * apply IH.
      * destruct (IH (parsed_logs ++ [ActivityLog_dict a])
                     (sent (printed w [PrRegexFailed provider]) (llm_request message)))
          as (new & -> & Hsub).
        exists (ActivityLog_dict a :: new). rewrite <- app_assoc.
        split; [reflexivity|]. now apply sublist_cons.
  - rewrite for_each_print. cbn [deterministic_records]. apply IH.
Qed.

Lemma fetch_loop_query_events channel q :
  events (fetch_loop channel q) = query_events q.
Proof. induction q as [|provider message rest IH|e]; cbn; congruence. Qed.

(** C8, amended.  The funnel keeps no event identity.  The step for an
    event that the deterministic layer parses appends its record whatever
    the list already holds; over any stream the records of the
    deterministic layer come out in the order of the events, repeats
    included, so a record occurs in the result at least as often as its
    event occurs in the stream; and a stream that delivers such an event
    [n] times and nothing else returns [n] equal records. *)
Theorem every_occurrence_is_recorded service reader registry
    provider message d :
  parse_with_regex registry provider message = Some d →
  truthy d = true →
  (∀ parsed_logs w,
     funnel_step service registry provider message parsed_logs w
     = (parsed_logs ++ [d], w))
  ∧ (∀ g parsed_logs w,
       ∃ new,
         fst (for_each service registry g parsed_logs w) = parsed_logs ++ new
         ∧ deterministic_records registry g `sublist_of` new)
  ∧ (∀ fetch_since w,
       (occurrences (provider, message)
          (query_events (reader (length (evt_queries w)) "Application"
                                (xpath_query (strftime fetch_since))))
        ≤ occurrences d
            (fst (process_logs_with service reader registry fetch_since w)))%nat)
  ∧ (∀ n fetch_since w,
       reader (length (evt_queries w)) "Application"
              (xpath_query (strftime fetch_since))
       = repeated n provider message →
       fst (process_logs_with service reader registry fetch_since w)
       = replicate n d).
Proof.
  intros Hd Ht. split; [|split; [|split]].
  - intros parsed_logs w. now rewrite funnel_step_eq, Hd, Ht.
  - intros g. apply for_each_deterministic_sublist.
  - intros fetch_since w. rewrite process_logs_with_eq. cbv zeta. cbn [fst].
    rewrite <- (fetch_loop_query_events "Application").
    apply (for_each_occurrences service registry provider message d Hd Ht
             (fetched reader fetch_since w) []).
  - intros n fetch_since w Hr. rewrite process_logs_with_eq. cbv zeta. cbn [fst].
    unfold fetched. rewrite Hr.
    rewrite (for_each_repeated service registry provider message d Hd Ht).
    reflexivity.
Qed.

Lemma every_occurrence_is_recorded_witness :
  (2 ≤ occurrences crash_record
         (fst (process_logs_with timing_out crash_other_crash PARSER_REGISTRY
                                 half_past_nine world0)))%nat.
Proof.
  assert (Ht : truthy crash_record = true) by (vm_compute; reflexivity).
  eapply Nat.le_trans;
    [|apply (proj1 (proj2 (proj2
               (every_occurrence_is_recorded timing_out crash_other_crash
                  PARSER_REGISTRY "Application Error" crash_message crash_record
                  parse_crash_message Ht)))
               half_past_nine world0)].
  vm_compute. apply le_n.
Defined.

(** *** A failing reader *)

Lemma for_each_failure service registry channel q : ∀ parsed_logs w,
  for_each service registry (fetch_loop channel q) parsed_logs w =
  let run := for_each service registry
                      (fetch_loop channel (events_before_failure q))
                      parsed_logs w in
  (fst run,
   match failure q with
   | Some e => printed (snd run) [PrFetchError channel e]
   | None => snd run
   end).
Proof.
  induction q as [|provider message rest IH|e]; intros parsed_logs w.
  - reflexivity.
  - cbn [events_before_failure fetch_loop failure].
    rewrite !for_each_yield. apply IH.
  - reflexivity.
Qed.

(** C7, as stated, fails: after the failed query no second one is made;
    the run ends with no record although a retry would have found one. *)
Lemma failed_read_is_not_retried :
  let run := process_logs timing_out flaky_reader half_past_nine world0 in
  fst run = []
  ∧ length (evt_queries (snd run)) = 1
  ∧ stdout (snd run)
    = [ PrFetching "Application" "2025-08-20 09:30:00+00:00";
        PrFetchError "Application" "The RPC server is unavailable.";
        PrSuccess 0;
        PrLogs [] ].
Proof. vm_compute. repeat split; reflexivity. Qed.

(** C7, amended.  A failure of the reader is caught, not retried: a run
    issues exactly one query whatever its outcome; the events delivered
    before the failure go through the funnel as usual, then one line
    reports the failure and the stream ends there, and the run completes
    with the records gathered so far. *)
Theorem reader_failure_ends_stream service reader registry :
  (∀ fetch_since w,
     evt_queries (snd (process_logs_with service reader registry fetch_since w))
     = evt_queries w ++ [("Application", xpath_query (strftime fetch_since))])
  ∧ (∀ channel q parsed_logs w,
       for_each service registry (fetch_loop channel q) parsed_logs w =
       let run := for_each service registry
                           (fetch_loop channel (events_before_failure q))
                           parsed_logs w in
       (fst run,
        match failure q with
        | Some e => printed (snd run) [PrFetchError channel e]
        | None => snd run
        end)).
Proof.
  split.
  - intros fetch_since w. rewrite process_logs_with_eq. cbv zeta.
    cbn [snd printed evt_queries]. rewrite for_each_queries. reflexivity.
  - intros channel q. apply for_each_failure.
Qed.

(** ** The decision rule *)

Lemma below_iff score match_threshold :
  below score match_threshold = true ↔ (score < match_threshold)%Q.
Proof.
  unfold below. rewrite negb_true_iff. split.
  - intros H. apply Qnot_le_lt. intros Hc. apply Qle_bool_iff in Hc. congruence.
  - intros H. destruct (Qle_bool match_threshold score) eqn:Hle; [|reflexivity].
    apply Qle_bool_iff in Hle. destruct (Qlt_not_le _ _ H Hle).
Qed.

Lemma below_false_iff score match_threshold :
  below score match_threshold = false ↔ (match_threshold <= score)%Q.
Proof.
  unfold below. rewrite negb_false_iff. apply Qle_bool_iff.
Qed.

(** C4.  In the decision rule a best score exactly equal to
    [match_threshold] gives [matched] with the returned topic -- the
    threshold is inclusive on the match side -- while a score strictly
    below the threshold, and an empty topic store, give [new_candidate];
    altogether the decision is [matched] exactly when a topic was returned
    with a score at or above the threshold. *)
Theorem threshold_is_inclusive match_threshold nearest :
  (∀ topic score,
     nearest = Some (topic, score) → (score == match_threshold)%Q →
     decision_rule match_threshold nearest = (matched, Some topic))
  ∧ (∀ topic score,
       nearest = Some (topic, score) → (score < match_threshold)%Q →
       decision_rule match_threshold nearest = (new_candidate, None))
  ∧ (nearest = None →
     decision_rule match_threshold nearest = (new_candidate, None))
  ∧ (∀ topic,
       decision_rule match_threshold nearest = (matched, Some topic)
       ↔ ∃ score, nearest = Some (topic, score)
                  ∧ (match_threshold <= score)%Q).
Proof.
  split; [|split; [|split]].
  - intros topic score -> Heq. cbn [decision_rule].
    assert (Hb : below score match_threshold = false).
    { apply below_false_iff. rewrite Heq. apply Qle_refl. }
    now rewrite Hb.
  - intros topic score -> Hlt. cbn [decision_rule].
    apply below_iff in Hlt. now rewrite Hlt.
  - intros ->. reflexivity.
  - intros topic. destruct nearest as [[t s]|]; cbn [decision_rule].
    + destruct (below s match_threshold) eqn:Hb.
      * split; [discriminate|]. intros (score & [= <- <-] & Hle).
        apply below_false_iff in Hle. congruence.
      * apply below_false_iff in Hb. split.
        -- intros [= <-]. eauto.
        -- intros (score & [= <- <-] & _). reflexivity.
    + split; [discriminate|]. intros (score & Hn & _). discriminate.
Qed.

Example tie_is_matched :
  decision_rule (93 # 100) (Some ("Project IntelliOS - Backend", 93 # 100))
  = (matched, Some "Project IntelliOS - Backend").
Proof. reflexivity. Qed.

Example just_below_is_new_candidate :
  decision_rule (93 # 100) (Some ("Project IntelliOS - Backend", 92 # 100))
  = (new_candidate, None).
Proof. reflexivity. Qed.

(** * Further properties of the modules *)

(** ** What the Application-Error rule captures *)

Module ReRunFacts.
Import Re ReSpec ReRun ReFacts.

Lemma match_here_run r : ∀ s pos st e st',
  match_here r s pos st = Some (e, st') →
  ∃ mid after, s = mid +:+ after ∧ run r mid pos st st'
               ∧ e = pos + String.length mid.
Proof.
  induction r as [|nd r IH]; intros s pos st e st' H; cbn [match_here] in H.
  - inversion H; subst. exists "", s. simpl.
    repeat split; [apply run_nil | lia].
  - destruct nd as [cs|cs|cs|n|n].
    + destruct s as [|c s]; [discriminate|].
      destruct (cs_mem cs c) eqn:Hc; [|discriminate].
      apply IH in H as (mid & after & -> & Hm & ->).
      exists (String c mid), after. rewrite append_cons. cbn [String.length].
      repeat split; [now constructor | lia].
    + apply star_loop_sound in H as (x & s' & -> & Hx & H).
      apply IH in H as (mid & after & -> & Hm & ->).
      exists (x +:+ mid), after. rewrite append_assoc, length_append.
      repeat split; [now constructor | lia].
    + destruct s as [|c s]; [discriminate|].
      destruct (cs_mem cs c) eqn:Hc; [|discriminate].
      apply star_loop_sound in H as (x & s' & -> & Hx & H).
      apply IH in H as (mid & after & -> & Hm & ->).
      exists (String c (x +:+ mid)), after.
      rewrite append_cons, append_assoc. cbn [String.length].
      rewrite length_append.
      repeat split; [now constructor | lia].
    + apply IH in H as (mid & after & -> & Hm & ->).
      exists mid, after. repeat split; now constructor.
    + apply IH in H as (mid & after & -> & Hm & ->).
      exists mid, after. repeat split; now constructor.
Qed.

Lemma search_from_run r : ∀ s pos b e st,
  search_from r s pos = Some (b, e, st) →
  ∃ before mid after,
    s = before +:+ mid +:+ after
    ∧ b = pos + String.length before
    ∧ e = b + String.length mid
    ∧ run r mid b ms_init st.
Proof.
  assert (Hhere : ∀ s pos b e st, match_here r s pos ms_init = Some (e, st) →
            Some (pos, e, st) = Some (b, e, st) →
            ∃ before mid after,
              s = before +:+ mid +:+ after
              ∧ b = pos + String.length before
              ∧ e = b + String.length mid
              ∧ run r mid b ms_init st).
  { intros s pos b e st H Hb. inversion Hb; subst b.
    apply match_here_run in H as (mid & after & Hs & Hmid & He).
    exists "", mid, after. simpl. repeat split; [exact Hs | lia | exact He | exact Hmid]. }
  induction s as [|c s IH]; intros pos b e st H; cbn [search_from] in H.
  - destruct (match_here r "" pos ms_init) as [[e' st']|] eqn:Hm; [|discriminate].
    inversion H; subst. eapply Hhere; [exact Hm | reflexivity].
  - destruct (match_here r (String c s) pos ms_init) as [[e' st']|] eqn:Hm.
    + inversion H; subst. eapply Hhere; [exact Hm | reflexivity].
    + apply IH in H as (before & mid & after & -> & -> & -> & Hmid).
      exists (String c before), mid, after. cbn [String.length].
      repeat split; [lia | exact Hmid].
Qed.

Lemma run_lits text : ∀ r s pos st st',
  run (lits text ++ r) s pos st st' →
  ∃ s', s = text +:+ s' ∧ run r s' (pos + String.length text) st st'.
Proof.
  unfold lits. induction text as [|c text IH]; intros r s pos st st' H.
  - exists s. simpl in *. now rewrite Nat.add_0_r.
  - cbn [list_ascii_of_string map app] in H. inversion H; subst.
    match goal with Hc : cs_mem _ _ = true |- _ =>
      apply bool_decide_eq_true in Hc; subst end.
    match goal with Hr : run _ _ (S pos) _ _ |- _ =>
      apply IH in Hr as (s' & -> & Hr) end.
    exists s'. rewrite append_cons. cbn [String.length]. split; [reflexivity|].
    now replace (pos + S (String.length text)) with (S pos + String.length text) by lia.
Qed.

(** A slice at the offsets of a stretch of the subject is that stretch. *)
Lemma substring_prefix mid after :
  substring 0 (String.length mid) (mid +:+ after) = mid.
Proof.
  induction mid as [|d mid IH].
  - simpl. now destruct after.
  - rewrite append_cons. cbn [String.length substring]. now rewrite IH.
Qed.

Lemma substring_stretch before : ∀ mid after,
  substring (String.length before) (String.length mid)
            (before +:+ mid +:+ after) = mid.
Proof.
  induction before as [|c before IH]; intros mid after.
  - change ("" +:+ mid +:+ after) with (mid +:+ after).
    apply substring_prefix.
  - rewrite append_cons. cbn [String.length substring]. apply IH.
Qed.

Lemma slice_stretch before mid after b e :
  b = String.length before → e = b + String.length mid →
  slice (before +:+ mid +:+ after) (b, e) = mid.
Proof.
  intros -> ->. unfold slice. cbn [fst snd].
  replace (String.length before + String.length mid - String.length before)
    with (String.length mid) by lia.
  apply substring_stretch.
Qed.

End ReRunFacts.

Module AppErrorFacts.
Import Re ReSpec ReRun ReFacts ReRunFacts.

Lemma run_nil_inv s pos st st' : run [] s pos st st' → s = "" ∧ st' = st.
Proof. intros H. inversion H; subst. now split. Qed.

Lemma run_open_inv n r s pos st st' :
  run (MarkOpen n :: r) s pos st st' → run r s pos (mark_open n pos st) st'.
Proof. intros H. now inversion H; subst. Qed.

Lemma run_close_inv n r s pos st st' :
  run (MarkClose n :: r) s pos st st' → run r s pos (mark_close n pos st) st'.
Proof. intros H. now inversion H; subst. Qed.

Lemma run_star_inv cs r s pos st st' :
  run (Star cs :: r) s pos st st' →
  ∃ x s', s = x +:+ s' ∧ all_in cs x = true
          ∧ run r s' (pos + String.length x) st st'.
Proof. intros H. inversion H; subst. eauto. Qed.

(** One character of the set, then a run of them: a non-empty text. *)
Lemma run_plus_inv cs r s pos st st' :
  run (Plus cs :: r) s pos st st' →
  ∃ x s', s = x +:+ s' ∧ text_of cs x
          ∧ run r s' (pos + String.length x) st st'.
Proof.
  intros H. inversion H as [| | |cs' r' c x s' pos' st0 st1 Hc Hx Hr| |]; subst.
  exists (String c x), s'. rewrite append_cons. unfold text_of.
  cbn [all_in String.length]. rewrite Hc, Hx. repeat split; [discriminate|].
  now replace (pos + S (String.length x)) with (S pos + String.length x) by lia.
Qed.

Lemma mark_close_open n p q st :
  mark_close n q (mark_open n p st)
  = MState ((n, p) :: ms_open st) (<[n := (p, q)]> (ms_caps st)).
Proof.
  unfold mark_close, mark_open. cbn [ms_open ms_caps assoc_find].
  now rewrite bool_decide_eq_true_2.
Qed.

Lemma app_error_nodes_eq :
  rx_nodes app_error_regex =
  lits "Faulting application name: "
  ++ MarkOpen "app_name" :: Plus name_chars :: MarkClose "app_name"
  :: lits ", " ++ Star CAny
  :: lits "Faulting module name: "
  ++ MarkOpen "module_name" :: Plus name_chars :: MarkClose "module_name"
  :: lits ", " ++ Star CAny
  :: lits "Exception code: "
  ++ MarkOpen "error_code" :: lits "0x" ++ Plus hex_chars
  :: [MarkClose "error_code"].
Proof. vm_compute. reflexivity. Qed.

Lemma app_error_groups_eq :
  rx_groups app_error_regex = ["app_name"; "module_name"; "error_code"].
Proof. vm_compute. reflexivity. Qed.

Lemma slice_of_split msg pre mid post b e :
  msg = pre +:+ mid +:+ post →
  b = String.length pre → e = b + String.length mid →
  slice msg (b, e) = mid.
Proof. intros ->. apply slice_stretch. Qed.

(** What a match of the pattern looks like, and what its marks hold. *)
Lemma app_error_run before mid after st :
  run (rx_nodes app_error_regex) mid (String.length before) ms_init st →
  ∃ app gap1 module gap2 hex,
    before +:+ mid +:+ after = crash_report before app gap1 module gap2 hex after
    ∧ text_of name_chars app ∧ all_in CAny gap1 = true
    ∧ text_of name_chars module ∧ all_in CAny gap2 = true
    ∧ text_of hex_chars hex
    ∧ slice (before +:+ mid +:+ after) <$> ms_caps st !! "app_name" = Some app
    ∧ slice (before +:+ mid +:+ after) <$> ms_caps st !! "module_name" = Some module
    ∧ slice (before +:+ mid +:+ after) <$> ms_caps st !! "error_code"
      = Some ("0x" +:+ hex).
Proof.
  intros H. rewrite app_error_nodes_eq in H.
  apply run_lits in H as (s1 & -> & H).
  apply run_open_inv, run_plus_inv in H as (app & s2 & -> & Happ & H).
  apply run_close_inv in H. rewrite mark_close_open in H.
  apply run_lits in H as (s3 & -> & H).
  apply run_star_inv in H as (gap1 & s4 & -> & Hgap1 & H).
  apply run_lits in H as (s5 & -> & H).
  apply run_open_inv, run_plus_inv in H as (module & s6 & -> & Hmod & H).
  apply run_close_inv in H. rewrite mark_close_open in H.
  apply run_lits in H as (s7 & -> & H).
  apply run_star_inv in H as (gap2 & s8 & -> & Hgap2 & H).
  apply run_lits in H as (s9 & -> & H).
  apply run_open_inv, run_lits in H as (s10 & -> & H).
  apply run_plus_inv in H as (hex & s11 & -> & Hhex & H).
  apply run_close_inv in H. rewrite mark_close_open in H.
  apply run_nil_inv in H as [-> ->].
  exists app, gap1, module, gap2, hex. cbn [ms_caps ms_init].
  assert (Hmsg : before +:+ ("Faulting application name: " +:+ app +:+ ", "
                   +:+ gap1 +:+ "Faulting module name: " +:+ module +:+ ", "
                   +:+ gap2 +:+ "Exception code: " +:+ "0x" +:+ hex +:+ "")
                   +:+ after
                 = crash_report before app gap1 module gap2 hex after).
  { unfold crash_report. rewrite !append_assoc. reflexivity. }
  rewrite Hmsg. repeat (split; [assumption || reflexivity|]).
  assert (Hlen : ∀ a b, String.length (a +:+ b) = String.length a + String.length b)
    by apply length_append.
  split; [|split].
  - rewrite lookup_insert_ne, lookup_insert_ne, lookup_insert_eq by discriminate.
    cbn [fmap option_fmap option_map]. f_equal.
    apply (slice_of_split _ (before +:+ "Faulting application name: ") app
             (", " +:+ gap1 +:+ "Faulting module name: " +:+ module +:+ ", "
              +:+ gap2 +:+ "Exception code: 0x" +:+ hex +:+ after)).
    + unfold crash_report. rewrite !append_assoc. reflexivity.
    + rewrite !Hlen. reflexivity.
    + reflexivity.
  - rewrite lookup_insert_ne, lookup_insert_eq by discriminate.
    cbn [fmap option_fmap option_map]. f_equal.
    apply (slice_of_split _
             (before +:+ "Faulting application name: " +:+ app +:+ ", "
              +:+ gap1 +:+ "Faulting module name: ") module
             (", " +:+ gap2 +:+ "Exception code: 0x" +:+ hex +:+ after)).
    + unfold crash_report. rewrite !append_assoc. reflexivity.
    + rewrite !Hlen. lia.
    + reflexivity.
  - rewrite lookup_insert_eq.
    cbn [fmap option_fmap option_map]. f_equal.
    apply (slice_of_split _
             (before +:+ "Faulting application name: " +:+ app +:+ ", "
              +:+ gap1 +:+ "Faulting module name: " +:+ module +:+ ", "
              +:+ gap2 +:+ "Exception code: ") ("0x" +:+ hex) after).
    + unfold crash_report. rewrite !append_assoc. reflexivity.
    + rewrite !Hlen. lia.
    + rewrite !Hlen. lia.
Qed.

Lemma group_value msg (caps : gmap string (nat * nat)) (n : string) v :
  slice msg <$> caps !! n = Some v →
  match caps !! n with
  | Some span => PyStr (slice msg span)
  | None => PyNone
  end = PyStr v.
Proof. destruct (caps !! n); intros [= <-]; reflexivity. Qed.

End AppErrorFacts.

(** A match of the Application-Error pattern: the shape of the message
    and the record the handler builds from the match. *)
Lemma app_error_search_inv message m :
  Re.search app_error_regex message = Some m →
  ∃ before app gap1 module gap2 hex after,
    message = crash_report before app gap1 module gap2 hex after
    ∧ text_of ReRun.name_chars app ∧ ReSpec.all_in Re.CAny gap1 = true
    ∧ text_of ReRun.name_chars module ∧ ReSpec.all_in Re.CAny gap2 = true
    ∧ text_of ReRun.hex_chars hex
    ∧ handle_app_error m = crash_fields app module hex.
Proof.
  unfold Re.search. rewrite AppErrorFacts.app_error_groups_eq.
  destruct (Re.search_from (Re.rx_nodes app_error_regex) message 0)
    as [[[b e] st]|] eqn:Hs; [|discriminate].
  apply ReRunFacts.search_from_run in Hs
    as (before & mid & after & -> & Hb & He & Hrun).
  cbn [Nat.add] in Hb. subst b. intros H. injection H as <-.
  destruct (AppErrorFacts.app_error_run before mid after st Hrun)
    as (app & gap1 & module & gap2 & hex & Hmsg & Happ & Hg1 & Hmod & Hg2
        & Hhex & Hcap1 & Hcap2 & Hcap3).
  exists before, app, gap1, module, gap2, hex, after.
  repeat (split; [assumption|]).
  unfold handle_app_error, crash_fields, Re.groupdict, dict_get.
  cbn [Re.m_names Re.m_caps Re.m_string foldr].
  rewrite lookup_insert_eq.
  rewrite lookup_insert_ne, lookup_insert_eq by discriminate.
  rewrite lookup_insert_ne, lookup_insert_ne, lookup_insert_eq by discriminate.
  cbn [default from_option].
  rewrite (AppErrorFacts.group_value _ _ _ _ Hcap1),
          (AppErrorFacts.group_value _ _ _ _ Hcap2),
          (AppErrorFacts.group_value _ _ _ _ Hcap3).
  reflexivity.
Qed.

(** A record of the shipped registry comes from its one rule. *)
Lemma PARSER_REGISTRY_hit provider message d :
  parse_with_regex PARSER_REGISTRY provider message = Some d →
  provider = "Application Error"
  ∧ ∃ m, Re.search app_error_regex message = Some m ∧ d = handle_app_error m.
Proof.
  rewrite PARSER_REGISTRY_eq, parse_with_regex_cons.
  cbn [provider_name regex handler parse_with_regex]. intros H.
  case_bool_decide as Hp; [|discriminate]. split; [now symmetry|].
  destruct (Re.search app_error_regex message) as [m|]; [|discriminate].
  injection H as <-. eauto.
Qed.

Module MatchesFacts.
Import Re ReSpec ReRun ReFacts.

Lemma matches_lits text : ∀ r s,
  matches r s → matches (lits text ++ r) (text +:+ s).
Proof.
  unfold lits. induction text as [|c text IH]; intros r s H; [exact H|].
  cbn [list_ascii_of_string map app]. rewrite append_cons.
  constructor; [|now apply IH]. simpl. now apply bool_decide_eq_true_2.
Qed.

Lemma matches_text cs x r s :
  text_of cs x → matches r s → matches (Plus cs :: r) (x +:+ s).
Proof.
  intros [Hne Hall] H. destruct x as [|c x]; [contradiction|].
  cbn [all_in] in Hall. apply andb_true_iff in Hall as [Hc Hx].
  rewrite append_cons. now constructor.
Qed.

Lemma crash_report_matches app gap1 module gap2 hex :
  text_of name_chars app → all_in CAny gap1 = true →
  text_of name_chars module → all_in CAny gap2 = true →
  text_of hex_chars hex →
  matches (rx_nodes app_error_regex)
          (crash_report "" app gap1 module gap2 hex "").
Proof.
  intros Happ Hg1 Hmod Hg2 Hhex.
  rewrite AppErrorFacts.app_error_nodes_eq. unfold crash_report.
  change ("" +:+ ?x) with x.
  apply matches_lits, matches_open, matches_text; [exact Happ|].
  apply matches_close, matches_lits, matches_star; [exact Hg1|].
  apply matches_lits, matches_open, matches_text; [exact Hmod|].
  apply matches_close, matches_lits, matches_star; [exact Hg2|].
  change ("Exception code: 0x" +:+ hex +:+ "")
    with ("Exception code: " +:+ "0x" +:+ hex +:+ "").
  apply matches_lits, matches_open, matches_lits, matches_text; [exact Hhex|].
  apply matches_close, matches_nil.
Qed.

End MatchesFacts.

(** X1.  Whenever the shipped registry returns a record, the provider is
    [Application Error], the message contains the three labelled values
    in order -- a name, a module name, a hexadecimal code after [0x] --
    and the record holds exactly those three stretches of the message
    beside [application_crash]: no field is ever [None] or rewritten. *)
Theorem app_error_record_holds_captures provider message d :
  parse_with_regex PARSER_REGISTRY provider message = Some d →
  provider = "Application Error"
  ∧ ∃ before app gap1 module gap2 hex after,
      message = crash_report before app gap1 module gap2 hex after
      ∧ text_of ReRun.name_chars app ∧ ReSpec.all_in Re.CAny gap1 = true
      ∧ text_of ReRun.name_chars module ∧ ReSpec.all_in Re.CAny gap2 = true
      ∧ text_of ReRun.hex_chars hex
      ∧ d = crash_fields app module hex.
Proof.
  intros H. apply PARSER_REGISTRY_hit in H as (Hp & m & Hm & ->).
  split; [exact Hp|].
  apply app_error_search_inv in Hm
    as (before & app & gap1 & module & gap2 & hex & after & Hshape).
  exists before, app, gap1, module, gap2, hex, after. exact Hshape.
Qed.

Lemma app_error_record_holds_captures_witness :
  "Application Error" = "Application Error"
  ∧ ∃ before app gap1 module gap2 hex after,
      crash_message = crash_report before app gap1 module gap2 hex after
      ∧ text_of ReRun.name_chars app ∧ ReSpec.all_in Re.CAny gap1 = true
      ∧ text_of ReRun.name_chars module ∧ ReSpec.all_in Re.CAny gap2 = true
      ∧ text_of ReRun.hex_chars hex
      ∧ crash_record = crash_fields app module hex.
Proof.
  apply (app_error_record_holds_captures "Application Error" crash_message
           crash_record).
  exact parse_crash_message.
Defined.

(** X2.  The deterministic layer of the shipped registry fires exactly on
    events of provider [Application Error] whose message contains, in
    order and on one line from the first label to the code, the three
    labelled values. *)
Theorem app_error_fires_iff provider message :
  is_Some (parse_with_regex PARSER_REGISTRY provider message)
  ↔ provider = "Application Error"
    ∧ ∃ before app gap1 module gap2 hex after,
        message = crash_report before app gap1 module gap2 hex after
        ∧ text_of ReRun.name_chars app ∧ ReSpec.all_in Re.CAny gap1 = true
        ∧ text_of ReRun.name_chars module ∧ ReSpec.all_in Re.CAny gap2 = true
        ∧ text_of ReRun.hex_chars hex.
Proof.
  split.
  - intros [d Hd]. apply PARSER_REGISTRY_hit in Hd as (Hp & m & Hm & _).
    split; [exact Hp|].
    apply app_error_search_inv in Hm
      as (before & app & gap1 & module & gap2 & hex & after & H).
    exists before, app, gap1, module, gap2, hex, after. tauto.
  - intros (-> & before & app & gap1 & module & gap2 & hex & after
            & -> & Happ & Hg1 & Hmod & Hg2 & Hhex).
    apply (parse_with_regex_candidate PARSER_REGISTRY _ _
             (Parser "Application Error" app_error_regex handle_app_error)).
    + rewrite PARSER_REGISTRY_eq. apply list_elem_of_here.
    + split; [reflexivity|]. cbn [regex].
      apply ReFacts.search_iff_occurs.
      exists before, (crash_report "" app gap1 module gap2 hex ""), after.
      split; [|now apply MatchesFacts.crash_report_matches].
      unfold crash_report. change ("" +:+ ?x) with x.
      rewrite !ReFacts.append_assoc. reflexivity.
Qed.

(** X3.  Appending rules to a registry never changes what the earlier
    rules parse: the extended registry answers as the old one wherever
    the old one answers, and as the new rules alone elsewhere. *)
Theorem parse_with_regex_app registry more provider message :
  parse_with_regex (registry ++ more) provider message =
  match parse_with_regex registry provider message with
  | Some d => Some d
  | None => parse_with_regex more provider message
  end.
Proof.
  induction registry as [|p rest IH]; [reflexivity|].
  rewrite <- app_comm_cons, !parse_with_regex_cons.
  case_bool_decide; [|exact IH].
  destruct (Re.search (regex p) message); [reflexivity | exact IH].
Qed.

Lemma groupdict_lookup m name :
  Re.groupdict m !! name
  = if bool_decide (name ∈ Re.m_names m) then Some (group_text m name) else None.
Proof.
  unfold Re.groupdict, group_text.
  induction (Re.m_names m) as [|n names IH]; cbn [foldr].
  - rewrite lookup_empty. case_bool_decide as H; [|reflexivity].
    now apply elem_of_nil in H.
  - destruct (decide (n = name)) as [->|Hne].
    + rewrite lookup_insert_eq, bool_decide_eq_true_2 by apply list_elem_of_here.
      reflexivity.
    + rewrite lookup_insert_ne, IH by exact Hne.
      repeat case_bool_decide; try reflexivity.
      * exfalso. match goal with H : ¬ _ |- _ => apply H end.
        now apply list_elem_of_further.
      * exfalso. match goal with H : _ ∈ _ :: _ |- _ =>
          apply elem_of_cons in H as [->|H] end; contradiction.
Qed.

(** X4.  Whatever match it is given, the handler returns the same four
    keys with [event_type] set to [application_crash]; each of the other
    three holds the stretch its group captured, and [None] -- not an
    error -- when the pattern defines no such group or the group took no
    part in the match. *)
Theorem handle_app_error_fields m field :
  field ∈ ["app_name"; "module_name"; "error_code"] →
  dom (handle_app_error m) = handler_keys
  ∧ handle_app_error m !! "event_type" = Some (PyStr "application_crash")
  ∧ handle_app_error m !! field
    = Some (if bool_decide (field ∈ Re.m_names m) then group_text m field
            else PyNone).
Proof.
  intros Hf. split; [apply handle_app_error_dom|].
  unfold handle_app_error. split; [now rewrite lookup_insert_eq|].
  assert (Hget : ∀ k, dict_get (Re.groupdict m) k
                      = if bool_decide (k ∈ Re.m_names m) then group_text m k
                        else PyNone).
  { intros k. unfold dict_get. rewrite groupdict_lookup.
    now case_bool_decide. }
  rewrite !elem_of_cons in Hf. destruct Hf as [->|[->|[->|Hf]]].
  - now rewrite lookup_insert_ne, lookup_insert_eq, Hget.
  - now rewrite lookup_insert_ne, lookup_insert_ne, lookup_insert_eq, Hget.
  - now rewrite !lookup_insert_ne, lookup_singleton_eq, Hget.
  - now apply elem_of_nil in Hf.
Qed.

Lemma handle_app_error_fields_witness :
  dom (handle_app_error app_only_match) = handler_keys
  ∧ handle_app_error app_only_match !! "event_type"
    = Some (PyStr "application_crash")
  ∧ handle_app_error app_only_match !! "module_name"
    = Some (if bool_decide ("module_name" ∈ Re.m_names app_only_match)
            then group_text app_only_match "module_name" else PyNone).
Proof.
  apply (handle_app_error_fields app_only_match "module_name").
  apply list_elem_of_further, list_elem_of_here.
Defined.

(** ** The constrained extraction, call by call *)

(** X5.  Every call of [parse_with_llm] sends exactly one request, the
    one built from its message, and queries no event log; it prints
    nothing when it returns a record and exactly one failure line when it
    returns [None]. *)
Theorem parse_with_llm_one_request service message w :
  let r := parse_with_llm service message w in
  llm_requests (snd r) = llm_requests w ++ [llm_request message]
  ∧ evt_queries (snd r) = evt_queries w
  ∧ match fst r with
    | Some _ => stdout (snd r) = stdout w
    | None => ∃ e, stdout (snd r) = stdout w ++ [PrLLMFailed e]
    end.
Proof.
  cbv zeta. rewrite parse_with_llm_eq.
  destruct (llm_outcome service (length (llm_requests w)) message) as [e|a];
    cbn [fst snd sent printed llm_requests evt_queries stdout];
    repeat split; eauto.
Qed.

Lemma validate_event_type_inr o t :
  validate_event_type o = inr t →
  ∃ s, o !! "event_type" = Some (JStr s) ∧ s ∈ event_type_names
       ∧ event_type_name t = s.
Proof.
  unfold validate_event_type.
  destruct (o !! "event_type") as [[| | |s| |]|]; try discriminate.
  destruct (parse_event_type s) as [t'|] eqn:Hp; [|discriminate].
  intros [= <-]. apply parse_event_type_Some in Hp as [-> Hin]. eauto.
Qed.

Lemma validate_optional_str_inr field o r :
  validate_optional_str field o = inr r →
  (r = None ∧ (o !! field = None ∨ o !! field = Some JNull))
  ∨ (∃ s, r = Some s ∧ o !! field = Some (JStr s)).
Proof.
  unfold validate_optional_str.
  destruct (o !! field) as [[| | |s| |]|]; intros [= <-]; eauto.
Qed.

Lemma validate_str_inr field o s :
  validate_str field o = inr s → o !! field = Some (JStr s).
Proof.
  unfold validate_str.
  destruct (o !! field) as [[| | |s'| |]|]; intros [= <-]; reflexivity.
Qed.

Lemma ActivityLog_dict_lookups a :
  ActivityLog_dict a !! "event_type" = Some (PyStr (event_type_name (event_type a)))
  ∧ ActivityLog_dict a !! "app_name" = Some (py_optional (app_name a))
  ∧ ActivityLog_dict a !! "file_path" = Some (py_optional (file_path a))
  ∧ ActivityLog_dict a !! "summary" = Some (PyStr (summary a)).
Proof.
  unfold ActivityLog_dict. split; [|split; [|split]].
  - now rewrite lookup_insert_eq.
  - now rewrite lookup_insert_ne, lookup_insert_eq.
  - now rewrite lookup_insert_ne, lookup_insert_ne, lookup_insert_eq.
  - now rewrite !lookup_insert_ne, lookup_singleton_eq.
Qed.

(** X6.  A record returned by [parse_with_llm] holds nothing but what the
    service sent: its [event_type] is the reply's, one of the four
    literals; its [summary] is the reply's string; [app_name] and
    [file_path] are the reply's strings, or [None] when the reply leaves
    them out or sends null. *)
Theorem parse_with_llm_copies_reply service message w d :
  fst (parse_with_llm service message w) = Some d →
  ∃ o,
    service (length (llm_requests w)) (llm_request message) = Returns (JObj o)
    ∧ (∃ s, o !! "event_type" = Some (JStr s) ∧ s ∈ event_type_names
            ∧ d !! "event_type" = Some (PyStr s))
    ∧ (∃ s, o !! "summary" = Some (JStr s) ∧ d !! "summary" = Some (PyStr s))
    ∧ (∀ field, field ∈ ["app_name"; "file_path"] →
         (d !! field = Some PyNone
          ∧ (o !! field = None ∨ o !! field = Some JNull))
         ∨ (∃ s, o !! field = Some (JStr s) ∧ d !! field = Some (PyStr s))).
Proof.
  intros H. apply parse_with_llm_Some in H as (reply & a & Hs & Hv & ->).
  destruct reply as [| | | | |o]; try discriminate. exists o.
  split; [exact Hs|]. simpl in Hv.
  destruct (validate_event_type o) as [?|t] eqn:Ht; [discriminate|].
  destruct (validate_optional_str "app_name" o) as [?|an] eqn:Han; [discriminate|].
  destruct (validate_optional_str "file_path" o) as [?|fp] eqn:Hfp; [discriminate|].
  destruct (validate_str "summary" o) as [?|sm] eqn:Hsm; [discriminate|].
  injection Hv as <-.
  destruct (ActivityLog_dict_lookups (MkActivityLog t an fp sm))
    as (Het & Hdan & Hdfp & Hdsm).
  cbn [event_type app_name file_path summary] in *.
  apply validate_event_type_inr in Ht as (s & Hos & Hin & Hname).
  apply validate_str_inr in Hsm.
  split; [exists s; now rewrite Het, Hname|].
  split; [exists sm; now rewrite Hdsm|].
  intros field Hf. apply elem_of_cons in Hf as [->|Hf].
  - apply validate_optional_str_inr in Han as [[-> Ho]|(s' & -> & Ho)].
    + left. now rewrite Hdan.
    + right. exists s'. now rewrite Hdan.
  - apply list_elem_of_singleton in Hf as ->.
    apply validate_optional_str_inr in Hfp as [[-> Ho]|(s' & -> & Ho)].
    + left. now rewrite Hdfp.
    + right. exists s'. now rewrite Hdfp.
Qed.

Lemma parse_with_llm_copies_reply_witness :
  ∃ o,
    Returns shutdown_reply = Returns (JObj o)
    ∧ (∃ s, o !! "event_type" = Some (JStr s) ∧ s ∈ event_type_names
            ∧ shutdown_record !! "event_type" = Some (PyStr s))
    ∧ (∃ s, o !! "summary" = Some (JStr s)
            ∧ shutdown_record !! "summary" = Some (PyStr s))
    ∧ (∀ field, field ∈ ["app_name"; "file_path"] →
         (shutdown_record !! field = Some PyNone
          ∧ (o !! field = None ∨ o !! field = Some JNull))
         ∨ (∃ s, o !! field = Some (JStr s)
                 ∧ shutdown_record !! field = Some (PyStr s))).
Proof.
  apply (parse_with_llm_copies_reply shutdown_service
           "User initiated shutdown" world0).
  vm_compute. reflexivity.
Defined.

Lemma validate_insert_other k v o :
  k ∉ schema_fields →
  validate_event_type (<[k := v]> o) = validate_event_type o
  ∧ (∀ f, f ∈ ["app_name"; "file_path"] →
       validate_optional_str f (<[k := v]> o) = validate_optional_str f o)
  ∧ validate_str "summary" (<[k := v]> o) = validate_str "summary" o.
Proof.
  unfold schema_fields. rewrite !not_elem_of_cons. intros (H1 & H2 & H3 & H4 & _).
  unfold validate_event_type, validate_optional_str, validate_str.
  split; [now rewrite lookup_insert_ne|].
  split; [|now rewrite lookup_insert_ne].
  intros f Hf. apply elem_of_cons in Hf as [->|Hf].
  - now rewrite lookup_insert_ne.
  - apply list_elem_of_singleton in Hf as ->. now rewrite lookup_insert_ne.
Qed.

(** X7.  Validation looks at the four fields of the schema only: a key of
    any other name, whatever its value, changes neither the verdict nor
    the validated record. *)
Theorem validation_ignores_other_keys k v o :
  k ∉ schema_fields →
  ActivityLog_validate (JObj (<[k := v]> o)) = ActivityLog_validate (JObj o).
Proof.
  intros Hk. destruct (validate_insert_other k v o Hk) as (He & Ho & Hs).
  cbn [ActivityLog_validate]. rewrite He, Hs.
  rewrite (Ho "app_name"), (Ho "file_path") by set_solver. reflexivity.
Qed.

Lemma validation_ignores_other_keys_witness :
  ActivityLog_validate
    (JObj (<["confidence" := JNum (9 # 10)]>
             {[ "event_type" := JStr "system_event";
                "summary" := JStr "User initiated shutdown" ]}))
  = ActivityLog_validate shutdown_reply.
Proof.
  apply (validation_ignores_other_keys "confidence" (JNum (9 # 10))).
  unfold schema_fields. rewrite !not_elem_of_cons.
  repeat split; try discriminate. apply not_elem_of_nil.
Defined.

(** X8.  For the two optional fields an explicit null is the same as
    leaving the field out. *)
Theorem null_is_absent field o :
  field ∈ ["app_name"; "file_path"] →
  ActivityLog_validate (JObj (<[field := JNull]> o))
  = ActivityLog_validate (JObj (delete field o)).
Proof.
  intros Hf. cbn [ActivityLog_validate].
  unfold validate_event_type, validate_optional_str, validate_str.
  apply elem_of_cons in Hf as [->|Hf];
    [|apply list_elem_of_singleton in Hf as ->].
  - rewrite !lookup_insert_eq, !lookup_delete_eq.
    rewrite !lookup_insert_ne, !lookup_delete_ne by discriminate. reflexivity.
  - rewrite !lookup_insert_eq, !lookup_delete_eq.
    rewrite !lookup_insert_ne, !lookup_delete_ne by discriminate. reflexivity.
Qed.

Lemma null_is_absent_witness :
  ActivityLog_validate
    (JObj (<["app_name" := JNull]>
             {[ "event_type" := JStr "system_event";
                "summary" := JStr "User initiated shutdown" ]}))
  = ActivityLog_validate
      (JObj (delete "app_name"
               {[ "event_type" := JStr "system_event";
                  "summary" := JStr "User initiated shutdown" ]})).
Proof.
  apply (null_is_absent "app_name"). apply list_elem_of_here.
Defined.

Lemma parse_event_type_name t : parse_event_type (event_type_name t) = Some t.
Proof. destruct t; reflexivity. Qed.

(** X9.  Round trip: the dictionary of a validated record, read back as a
    reply, validates to the same record. *)
Theorem ActivityLog_dict_validates a :
  ActivityLog_validate (json_of_dict (ActivityLog_dict a)) = inr a.
Proof.
  destruct a as [t an fp sm].
  unfold json_of_dict, ActivityLog_dict. cbn [event_type app_name file_path summary].
  rewrite !fmap_insert, map_fmap_singleton. cbn [json_of_pyval ActivityLog_validate].
  unfold validate_event_type, validate_optional_str, validate_str.
  rewrite lookup_insert_eq, parse_event_type_name.
  rewrite lookup_insert_ne, lookup_insert_eq by discriminate.
  rewrite lookup_insert_ne, lookup_insert_ne, lookup_insert_eq by discriminate.
  rewrite !lookup_insert_ne, lookup_singleton_eq by discriminate.
  destruct an, fp; reflexivity.
Qed.

(** ** The loop over the events *)

Lemma funnel_step_grows service registry provider message parsed_logs w :
  ∃ new lines,
    fst (funnel_step service registry provider message parsed_logs w)
    = parsed_logs ++ new
    ∧ (length new ≤ 1)%nat
    ∧ stdout (snd (funnel_step service registry provider message parsed_logs w))
      = stdout w ++ lines.
Proof.
  rewrite funnel_step_eq.
  destruct (parse_with_regex registry provider message) as [d|].
  - destruct (truthy d).
    + exists [d], []. cbn [fst snd length]. now rewrite app_nil_r.
    + exists [], []. cbn [fst snd length]. rewrite !app_nil_r. split; [|split]; [reflexivity|lia|reflexivity].
  - cbv zeta. destruct (llm_outcome _ _ _) as [e|a].
    + exists [], [PrRegexFailed provider; PrLLMFailed e].
      cbn [fst snd length printed sent stdout].
      rewrite app_nil_r, <- app_assoc. split; [|split]; [reflexivity|lia|reflexivity].
    + exists [ActivityLog_dict a], [PrRegexFailed provider].
      cbn [fst snd length printed sent stdout]. split; [|split]; [reflexivity|lia|reflexivity].
Qed.

(** X10.  The loop only ever appends: the records it was given stay in
    front, in order, at most one record is added per event, and the
    console it was given stays in front of what it prints. *)
Theorem for_each_appends service registry g : ∀ parsed_logs w,
  ∃ new lines,
    fst (for_each service registry g parsed_logs w) = parsed_logs ++ new
    ∧ (length new ≤ length (events g))%nat
    ∧ stdout (snd (for_each service registry g parsed_logs w))
      = stdout w ++ lines.
Proof.
  induction g as [|provider message rest IH|line rest IH]; intros parsed_logs w.
  - exists [], []. cbn. now rewrite !app_nil_r.
  - rewrite for_each_yield.
    destruct (funnel_step_grows service registry provider message parsed_logs w)
      as (new1 & lines1 & Hf1 & Hlen1 & Hs1).
    destruct (IH (fst (funnel_step service registry provider message parsed_logs w))
                 (snd (funnel_step service registry provider message parsed_logs w)))
      as (new2 & lines2 & Hf2 & Hlen2 & Hs2).
    exists (new1 ++ new2), (lines1 ++ lines2).
    rewrite Hf2, Hs2, Hf1, Hs1, !app_assoc, length_app. cbn [events length].
    split; [|split]; [reflexivity|lia|reflexivity].
  - rewrite for_each_print.
    destruct (IH parsed_logs (printed w [line])) as (new & lines & -> & Hlen & ->).
    exists new, (line :: lines). cbn [events printed stdout].
    split; [|split]; [reflexivity|exact Hlen|]. now rewrite <- app_assoc.
Qed.

(** X11.  Processing one stream after another is processing them as one:
    the loop over [gen_app g1 g2] is the loop over [g2] started from the
    records and the world the loop over [g1] leaves. *)
Theorem for_each_gen_app service registry g1 g2 : ∀ parsed_logs w,
  for_each service registry (gen_app g1 g2) parsed_logs w =
  for_each service registry g2
    (fst (for_each service registry g1 parsed_logs w))
    (snd (for_each service registry g1 parsed_logs w)).
Proof.
  induction g1 as [|provider message rest IH|line rest IH]; intros parsed_logs w.
  - reflexivity.
  - cbn [gen_app]. rewrite !for_each_yield. apply IH.
  - cbn [gen_app]. rewrite !for_each_print. apply IH.
Qed.

Lemma printed_nil w : printed w [] = w.
Proof. destruct w. unfold printed. cbn. now rewrite app_nil_r. Qed.

Lemma printed_app w l1 l2 : printed (printed w l1) l2 = printed w (l1 ++ l2).
Proof. unfold printed. cbn. now rewrite app_assoc. Qed.

(** X12.  When the deterministic layer parses every event of a stream,
    the model service plays no part: whatever the service, the loop adds
    the records of the deterministic layer, in the order of the events,
    and the world changes only by the lines the generator itself prints. *)
Theorem for_each_without_misses service registry g : ∀ parsed_logs w,
  missed registry g = [] →
  for_each service registry g parsed_logs w
  = (parsed_logs ++ deterministic_records registry g, printed w (prints g)).
Proof.
  induction g as [|provider message rest IH|line rest IH];
    intros parsed_logs w Hm.
  - cbn. now rewrite app_nil_r, printed_nil.
  - rewrite for_each_yield, funnel_step_eq. cbn [missed deterministic_records prints] in *.
    destruct (parse_with_regex registry provider message) as [d|]; [|discriminate].
    cbn [fst snd]. rewrite (IH _ _ Hm).
    destruct (truthy d); [|reflexivity]. now rewrite <- app_assoc.
  - rewrite for_each_print. cbn [missed deterministic_records prints] in *.
    rewrite (IH _ _ Hm), printed_app. reflexivity.
Qed.

Lemma for_each_without_misses_witness :
  for_each timing_out PARSER_REGISTRY
           (fetch_loop "Application" (repeated 2 "Application Error" crash_message))
           [] world0
  = ([] ++ deterministic_records PARSER_REGISTRY
             (fetch_loop "Application"
                         (repeated 2 "Application Error" crash_message)),
     printed world0
             (prints (fetch_loop "Application"
                                 (repeated 2 "Application Error" crash_message)))).
Proof.
  apply (for_each_without_misses timing_out PARSER_REGISTRY).
  vm_compute. reflexivity.
Defined.

Lemma fetch_loop_events channel q : events (fetch_loop channel q) = query_events q.
Proof. induction q as [|provider message rest IH|e]; cbn; congruence. Qed.

Lemma fetch_loop_prints channel q :
  prints (fetch_loop channel q)
  = match failure q with
    | Some e => [PrFetchError channel e]
    | None => []
    end.
Proof. induction q as [|provider message rest IH|e]; cbn; congruence. Qed.

Lemma llm_failures_app l1 l2 :
  llm_failures (l1 ++ l2) = llm_failures l1 + llm_failures l2.
Proof. unfold llm_failures. now rewrite List.filter_app, length_app. Qed.

Lemma regex_misses_app l1 l2 :
  regex_misses (l1 ++ l2) = regex_misses l1 + regex_misses l2.
Proof. unfold regex_misses. now rewrite List.filter_app, length_app. Qed.

Lemma crash_fields_truthy app module hex : truthy (crash_fields app module hex) = true.
Proof.
  unfold truthy, crash_fields. case_bool_decide as H; [|reflexivity].
  now apply insert_non_empty in H.
Qed.

Lemma PARSER_REGISTRY_truthy provider message d :
  parse_with_regex PARSER_REGISTRY provider message = Some d → truthy d = true.
Proof.
  intros H. apply PARSER_REGISTRY_hit in H as (_ & m & Hm & ->).
  apply app_error_search_inv in Hm
    as (before & app & gap1 & module & gap2 & hex & after & H).
  destruct H as (_ & _ & _ & _ & _ & _ & ->). apply crash_fields_truthy.
Qed.

Lemma for_each_accounts service g : ∀ parsed_logs w,
  length (fst (for_each service PARSER_REGISTRY g parsed_logs w))
  + llm_failures (stdout (snd (for_each service PARSER_REGISTRY g parsed_logs w)))
  = length parsed_logs + llm_failures (stdout w)
    + length (events g) + llm_failures (prints g).
Proof.
  induction g as [|provider message rest IH|line rest IH]; intros parsed_logs w.
  - cbn. lia.
  - rewrite for_each_yield, IH, funnel_step_eq. cbn [events prints length].
    destruct (parse_with_regex PARSER_REGISTRY provider message) as [d|] eqn:Hd.
    + rewrite (PARSER_REGISTRY_truthy _ _ _ Hd). cbn [fst snd].
      rewrite length_app. cbn [length]. lia.
    + cbv zeta. destruct (llm_outcome _ _ _) as [e|a];
        cbn [fst snd printed sent stdout]; rewrite ?llm_failures_app, ?length_app;
        cbn; lia.
  - rewrite for_each_print, IH. cbn [events prints printed stdout].
    rewrite llm_failures_app.
    change (llm_failures (line :: prints rest))
      with (llm_failures ([line] ++ prints rest)).
    rewrite llm_failures_app. lia.
Qed.

(** X13.  In a run of the shipped funnel every event the reader delivered
    is accounted for: the number of records returned plus the number of
    failed-extraction lines printed during the run is the number of events
    delivered. *)
Theorem every_event_accounted_for service reader fetch_since w :
  let run := process_logs service reader fetch_since w in
  length (fst run) + llm_failures (stdout (snd run))
  = llm_failures (stdout w)
    + length (query_events
                (reader (length (evt_queries w)) "Application"
                        (xpath_query (strftime fetch_since)))).
Proof.
  cbv zeta. unfold process_logs. rewrite process_logs_with_eq. cbv zeta.
  cbn [fst snd printed stdout]. rewrite !llm_failures_app.
  pose proof (for_each_accounts service (fetched reader fetch_since w) []
                (queried (printed w [PrFetching "Application" (datetime_str fetch_since)])
                         fetch_since)) as H.
  unfold fetched in *. rewrite fetch_loop_events, fetch_loop_prints in H.
  cbn [queried printed stdout length] in H. rewrite llm_failures_app in H.
  assert (Hz : ∀ n, llm_failures [PrSuccess n] = 0) by reflexivity.
  assert (Hl : ∀ l, llm_failures [PrLogs l] = 0) by reflexivity.
  rewrite Hz, Hl.
  change (llm_failures [PrFetching "Application" (datetime_str fetch_since)]) with 0 in H.
  destruct (failure _); cbn in H; lia.
Qed.

Lemma funnel_step_lockstep service registry provider message parsed_logs w :
  regex_misses
    (stdout (snd (funnel_step service registry provider message parsed_logs w)))
  + length (llm_requests w)
  = regex_misses (stdout w)
    + length (llm_requests
                (snd (funnel_step service registry provider message parsed_logs w))).
Proof.
  rewrite funnel_step_eq.
  destruct (parse_with_regex registry provider message) as [d|]; [reflexivity|].
  cbv zeta. destruct (llm_outcome _ _ _) as [e|a];
    cbn [snd printed sent stdout llm_requests];
    rewrite ?regex_misses_app, length_app; cbn; lia.
Qed.

Lemma for_each_lockstep service registry g : ∀ parsed_logs w,
  regex_misses (stdout (snd (for_each service registry g parsed_logs w)))
  + length (llm_requests w)
  = regex_misses (stdout w) + regex_misses (prints g)
    + length (llm_requests (snd (for_each service registry g parsed_logs w))).
Proof.
  induction g as [|provider message rest IH|line rest IH]; intros parsed_logs w.
  - cbn. lia.
  - rewrite for_each_yield. cbn [prints].
    pose proof (IH (fst (funnel_step service registry provider message parsed_logs w))
                   (snd (funnel_step service registry provider message parsed_logs w))).
    pose proof (funnel_step_lockstep service registry provider message parsed_logs w).
    lia.
  - rewrite for_each_print. cbn [prints].
    pose proof (IH parsed_logs (printed w [line])) as H.
    cbn [printed stdout llm_requests] in H. rewrite regex_misses_app in H.
    change (regex_misses (line :: prints rest))
      with (regex_misses ([line] ++ prints rest)).
    rewrite regex_misses_app. lia.
Qed.

(** X14.  Console and service move in lockstep: over a run, the number
    of lines that report a miss of the deterministic layer grows by
    exactly the number of requests sent to the model service. *)
Theorem misses_and_requests_in_lockstep service reader registry fetch_since w :
  let run := process_logs_with service reader registry fetch_since w in
  regex_misses (stdout (snd run)) + length (llm_requests w)
  = regex_misses (stdout w) + length (llm_requests (snd run)).
Proof.
  cbv zeta. rewrite process_logs_with_eq. cbv zeta.
  cbn [snd printed stdout llm_requests]. rewrite !regex_misses_app.
  pose proof (for_each_lockstep service registry (fetched reader fetch_since w) []
                (queried (printed w [PrFetching "Application" (datetime_str fetch_since)])
                         fetch_since)) as H.
  unfold fetched in *. rewrite fetch_loop_prints in H.
  cbn [queried printed stdout llm_requests] in H.
  rewrite regex_misses_app in H.
  assert (Hz : ∀ n, regex_misses [PrSuccess n] = 0) by reflexivity.
  assert (Hl : ∀ l, regex_misses [PrLogs l] = 0) by reflexivity.
  rewrite Hz, Hl.
  change (regex_misses [PrFetching "Application" (datetime_str fetch_since)]) with 0 in H.
  destruct (failure _); cbn in H; lia.
Qed.

(** X15.  When the reader delivers no event -- the log is empty, or the
    query fails before the first event -- the run returns the empty list
    and sends nothing to the model service. *)
Theorem empty_stream_empty_result service reader registry fetch_since w :
  query_events (reader (length (evt_queries w)) "Application"
                       (xpath_query (strftime fetch_since))) = [] →
  fst (process_logs_with service reader registry fetch_since w) = []
  ∧ llm_requests (snd (process_logs_with service reader registry fetch_since w))
    = llm_requests w.
Proof.
  intros Hq. rewrite process_logs_with_eq. cbv zeta. cbn [fst snd printed llm_requests].
  unfold fetched.
  destruct (reader _ _ _) as [|provider message rest|e]; [|discriminate|];
    cbn; split; reflexivity.
Qed.

Lemma empty_stream_empty_result_witness :
  fst (process_logs_with timing_out flaky_reader PARSER_REGISTRY
                         half_past_nine world0) = []
  ∧ llm_requests (snd (process_logs_with timing_out flaky_reader PARSER_REGISTRY
                                         half_past_nine world0))
    = llm_requests world0.
Proof.
  apply (empty_stream_empty_result timing_out flaky_reader PARSER_REGISTRY
           half_past_nine world0).
  reflexivity.
Defined.

(** X17.  The fallback keeps what it extracts: on a miss of the
    deterministic layer, a reply that validates is appended as the
    dictionary of the validated record -- also when its optional fields
    are all [None] -- after one line reporting the miss and one request. *)
Theorem fallback_record_is_kept service registry provider message
    parsed_logs w reply response :
  parse_with_regex registry provider message = None →
  service (length (llm_requests w)) (llm_request message) = Returns reply →
  ActivityLog_validate reply = inr response →
  funnel_step service registry provider message parsed_logs w
  = (parsed_logs ++ [ActivityLog_dict response],
     sent (printed w [PrRegexFailed provider]) (llm_request message)).
Proof.
  intros Hmiss Hs Hv. rewrite funnel_step_eq, Hmiss. cbv zeta.
  unfold llm_outcome. rewrite Hs, Hv. reflexivity.
Qed.

Lemma fallback_record_is_kept_witness :
  funnel_step shutdown_service PARSER_REGISTRY "Service Control Manager"
              "User initiated shutdown" [] world0
  = ([] ++ [shutdown_record],
     sent (printed world0 [PrRegexFailed "Service Control Manager"])
          (llm_request "User initiated shutdown")).
Proof.
  apply (fallback_record_is_kept shutdown_service PARSER_REGISTRY
           "Service Control Manager" "User initiated shutdown" [] world0
           shutdown_reply
           (MkActivityLog system_event None None "User initiated shutdown")).
  - vm_compute. reflexivity.
  - reflexivity.
  - vm_compute. reflexivity.
Defined.
